(** * antora-lunr: lib/generate-index.js

    A shallow embedding of [generateIndex], [str2buffer], [compress] and
    [createIndexFile], with the properties of the extraction, of the index
    assembly and of the packaging.

    JavaScript strings are sequences of 16-bit code units: [jsstring] is a
    list of integers, [js] turns an ASCII literal into one.  The external
    capabilities (DOM queries, entity decoder, index builder, compressor,
    JSON) are either modelled by what the program relies on or taken as
    section variables. *)

From Stdlib Require Import ZArith List Ascii String Bool Lia.
From stdpp Require Import base list sorting gmap.

Local Open Scope Z_scope.
Local Open Scope list_scope.

(** ** JavaScript strings *)

Abbreviation jsstring := (list Z).

Definition js (s : string) : jsstring :=
  List.map (fun a => Z.of_N (N_of_ascii a)) (list_ascii_of_string s).

(** A string of the language holds code units only. *)
Definition code_unit (c : Z) : Prop := 0 <= c < 65536.
Definition wf_string (s : jsstring) : Prop := Forall code_unit s.

Definition str_eqb (a b : jsstring) : bool := bool_decide (a = b).

(** [s.charAt(i)]: the one-unit string at [i], or the empty string. *)
Definition charAt (s : jsstring) (i : Z) : jsstring :=
  if i <? 0 then []
  else match s !! Z.to_nat i with Some c => [c] | None => [] end.

(** [s.substr(start, len)] for [start >= 0]. *)
Definition substr (s : jsstring) (start len : Z) : jsstring :=
  take (Z.to_nat len) (drop (Z.to_nat start) s).

(** [s.charCodeAt(i)]; out of range it is NaN, which an integer array
    stores as 0. *)
Definition charCodeAt (s : jsstring) (i : nat) : Z := default 0 (s !! i).

(** The characters matched by [\s], which are also the ones [trim]
    removes: WhiteSpace and LineTerminator of the language. *)
Definition is_space (c : Z) : bool :=
  (c =? 9) || (c =? 10) || (c =? 11) || (c =? 12) || (c =? 13) || (c =? 32)
  || (c =? 160) || (c =? 5760) || ((8192 <=? c) && (c <=? 8202))
  || (c =? 8232) || (c =? 8233) || (c =? 8239) || (c =? 8287)
  || (c =? 12288) || (c =? 65279).

Fixpoint take_while (f : Z -> bool) (s : jsstring) : jsstring :=
  match s with
  | c :: r => if f c then c :: take_while f r else []
  | [] => []
  end.

Fixpoint drop_while (f : Z -> bool) (s : jsstring) : jsstring :=
  match s with
  | c :: r => if f c then drop_while f r else s
  | [] => []
  end.

(** ** Global replacement by a regular expression

    A pattern is given by its matcher: [m s = Some n] when the pattern
    matches at the start of [s], the match being the first [n] units.
    [replace m rep s] is [s.replace(/.../g, rep)]: the matches are found
    from left to right, each search resuming after the previous match.
    [skip] counts the units of the current match still to be dropped.
    The four patterns of the program never match the empty string. *)

Fixpoint replace_from (m : jsstring -> option nat) (rep : jsstring)
    (skip : nat) (s : jsstring) : jsstring :=
  match s with
  | [] => []
  | c :: r =>
      match skip with
      | S k => replace_from m rep k r
      | O =>
          match m s with
          | Some (S k) => rep ++ replace_from m rep k r
          | _ => c :: replace_from m rep 0 r
          end
      end
  end.

Definition replace (m : jsstring -> option nat) (rep s : jsstring) : jsstring :=
  replace_from m rep 0 s.

(** [/(<([^>]+)>)/ig]: a [<], one or more units other than [>], a [>]. *)
Definition re_tag (s : jsstring) : option nat :=
  match s with
  | c :: r =>
      if c =? 60 then
        let body := take_while (fun x => negb (x =? 62)) r in
        match body, drop_while (fun x => negb (x =? 62)) r with
        | _ :: _, _ :: _ => Some (S (S (length body)))
        | _, _ => None
        end
      else None
  | [] => None
  end.

(** [/\n/g] and [/\r/g]. *)
Definition re_unit (u : Z) (s : jsstring) : option nat :=
  match s with
  | c :: _ => if c =? u then Some 1%nat else None
  | [] => None
  end.

(** [/\s+/g]. *)
Definition re_spaces (s : jsstring) : option nat :=
  match take_while is_space s with
  | [] => None
  | run => Some (length run)
  end.

(** [s.trim()]. *)
Definition trim (s : jsstring) : jsstring :=
  rev (drop_while is_space (rev (drop_while is_space s))).

(** Lines 61-65: the chain applied to the decoded article text. *)
Definition strip_tags (s : jsstring) : jsstring := replace re_tag [] s.

Definition clean (s : jsstring) : jsstring :=
  trim
    (replace re_spaces (js " ")
       (replace (re_unit 13) (js " ")
          (replace (re_unit 10) (js " ")
             (strip_tags s)))).

(** ** The document tree

    Modelled from the spec: the DOM-query capability (the library behind
    [cheerio.load], [$], [text], [attr], [each] and [remove], which is not
    part of the repository): select by selector, read and remove nodes,
    read text.  The parser is outside the program: a page carries the
    tree that [cheerio.load] yields. *)

Inductive node : Type :=
| Text (data : jsstring)
| Comment (data : jsstring)
| Element (name : jsstring) (attribs : list (jsstring * jsstring))
    (children : list node).

Definition isTag (n : node) : bool :=
  match n with Element _ _ _ => true | _ => false end.

Definition tagName (n : node) : jsstring :=
  match n with Element nm _ _ => nm | _ => [] end.

(** [attribs[name]]: the first attribute of that name. *)
Fixpoint assoc (k : jsstring) (l : list (jsstring * jsstring)) : option jsstring :=
  match l with
  | [] => None
  | (k', v) :: r => if str_eqb k' k then Some v else assoc k r
  end.

Definition attr (n : node) (k : jsstring) : option jsstring :=
  match n with Element _ a _ => assoc k a | _ => None end.

(** The whitespace-separated tokens of an attribute value. *)
Fixpoint tokens_from (cur : jsstring) (s : jsstring) : list jsstring :=
  match s with
  | [] => match cur with [] => [] | _ => [rev cur] end
  | c :: r =>
      if is_space c
      then match cur with [] => tokens_from [] r | _ => rev cur :: tokens_from [] r end
      else tokens_from (c :: cur) r
  end.

Definition tokens (s : jsstring) : list jsstring := tokens_from [] s.

Definition hasClass (cls : jsstring) (n : node) : bool :=
  match attr n (js "class") with
  | Some v => existsb (str_eqb cls) (tokens v)
  | None => false
  end.

(** The three selectors of the program. *)
Definition sel_article_doc (n : node) : bool :=
  str_eqb (tagName n) (js "article") && hasClass (js "doc") n.

Definition sel_h1 (n : node) : bool := isTag n && str_eqb (tagName n) (js "h1").

Definition sel_h2_h6 (n : node) : bool :=
  isTag n &&
  existsb (str_eqb (tagName n)) [js "h2"; js "h3"; js "h4"; js "h5"; js "h6"].

(** ** Node objects and removal

    The tree is a mutable object and a selection holds references to its
    nodes.  A node object is identified by its position in the loaded
    document: the child indices from the node up to the root ([i :: p] is
    child [i] of the node at [p], [[]] is the root).  [remove] only
    detaches nodes, so the state of the tree is the list [cut] of the
    positions detached so far: a detached node has no parent any more and
    is missing from its former parent's children, and keeps its own
    subtree. *)

Definition path := list nat.
Definition ref := (path * node)%type.

Definition removed (cut : list path) (p : path) : bool := bool_decide (p ∈ cut).

Fixpoint children_from (cut : list path) (p : path) (i : nat) (cs : list node)
  : list ref :=
  match cs with
  | [] => []
  | c :: r =>
      (if removed cut (i :: p) then [] else [(i :: p, c)])
        ++ children_from cut p (S i) r
  end.

(** [elem.children] in the current state. *)
Definition children (cut : list path) (r : ref) : list ref :=
  match r.2 with
  | Element _ _ cs => children_from cut r.1 0 cs
  | _ => []
  end.

(** [elem.parent] chain in the current state: the node and its ancestors. *)
Fixpoint ancestors (cut : list path) (p : path) : list path :=
  p :: match p with
       | [] => []
       | _ :: q => if removed cut p then [] else ancestors cut q
       end.

Section Dom.

(** Element names whose content [text()] leaves out: the releases of the
    DOM library differ on [script] and [style]. *)
Variable skips_text : jsstring -> bool.

(** Modelled from the spec: "read text".  [text()] of one node: the data
    of the text nodes below it, in the current state of the tree. *)
Fixpoint text (cut : list path) (p : path) (n : node) : jsstring :=
  match n with
  | Text d => d
  | Comment _ => []
  | Element nm _ cs =>
      if skips_text nm then []
      else
        (fix go (i : nat) (cs : list node) : jsstring :=
           match cs with
           | [] => []
           | c :: r =>
               (if removed cut (i :: p) then [] else text cut (i :: p) c)
                 ++ go (S i) r
           end) 0%nat cs
  end.

(** [text()] of a selection. *)
Definition text_of (cut : list path) (sel : list ref) : jsstring :=
  concat (List.map (fun r => text cut r.1 r.2) sel).

End Dom.

(** The elements at and below a node, in document order. *)
Fixpoint walk (cut : list path) (p : path) (n : node) : list ref :=
  match n with
  | Element _ _ cs =>
      (p, n) ::
      (fix go (i : nat) (cs : list node) : list ref :=
         match cs with
         | [] => []
         | c :: r =>
             (if removed cut (i :: p) then [] else walk cut (i :: p) c)
               ++ go (S i) r
         end) 0%nat cs
  | _ => []
  end.

(** [removeSubsets]: going through the array from its end, an entry is
    dropped when it or one of its ancestors is found among the other
    entries.  [todo] holds the entries up to the current one, last first;
    [kept] the later entries that stayed. *)
Fixpoint removeSubsets_loop (cut : list path) (todo kept : list ref) : list ref :=
  match todo with
  | [] => kept
  | x :: before =>
      if existsb (fun a => bool_decide (a ∈ (before.*1 ++ kept.*1)))
           (ancestors cut x.1)
      then removeSubsets_loop cut before kept
      else removeSubsets_loop cut before (x :: kept)
  end.

Definition removeSubsets (cut : list path) (nodes : list ref) : list ref :=
  removeSubsets_loop cut (rev nodes) [].

(** [findAll(test, elems)]: depth first, parents before children. *)
Definition findAll (cut : list path) (test : node -> bool) (elems : list ref)
  : list ref :=
  List.filter (fun r => test r.2) (flat_map (fun r => walk cut r.1 r.2) elems).

(** The elements a search starts from: the element children of the
    context nodes. *)
Definition starts (cut : list path) (context : list ref) : list ref :=
  flat_map (fun c => List.filter (fun r => isTag r.2) (children cut c)) context.

(** Modelled from the spec: "select by CSS-like selector".
    [$(selector, context)], that is [context.find(selector)]: the search
    starts from the element children of the context nodes, without those
    that lie below another of them, and lists the matching elements of
    each subtree in document order. *)
Definition find (cut : list path) (test : node -> bool) (context : list ref)
  : list ref :=
  findAll cut test (removeSubsets cut (starts cut context)).

(** The root of a loaded document. *)
Definition root (doc : list node) : ref := ([], Element (js "root") [] doc).

(** Modelled from the spec: "remove nodes".  [sel.remove()] detaches
    every node of the selection. *)
Definition remove (cut : list path) (sel : list ref) : list path := cut ++ sel.*1.

(** ** The records of the program *)

Module HeadingRef.
Record t := mk { text : jsstring; id : jsstring }.
End HeadingRef.

Module Doc.
Record t := mk {
  text : jsstring;
  title : jsstring;
  component : jsstring;
  version : jsstring;
  name : jsstring;
  url : jsstring;
  titles : list HeadingRef.t
}.
End Doc.

Module Src.
Record t := mk { component : jsstring; version : jsstring; stem : jsstring }.
End Src.

Module Pub.
Record t := mk { url : jsstring }.
End Pub.

Module Page.
(** [contents] is the tree that [cheerio.load(page.contents.toString())]
    yields: the children of its root. *)
Record t := mk { contents : list node; src : Src.t; pub : Pub.t }.
End Page.

Module Playbook.
(** [playbook.site.url] may be missing. *)
Record t := mk { site_url : option jsstring }.
End Playbook.

(** What [lunr] is given through [add]: a page record or the sparse
    record of a heading. *)
Inductive IndexRecord : Type :=
| PageRecord (doc : Doc.t)
| HeadingRecord (title url : jsstring).

(** ** The index builder

    Modelled from the spec: the inverted-index builder (ref key, weighted
    fields, add-record, finalize), which is not part of the repository.
    Of the builder the program sets the reference field, the fields with
    their boosts and the metadata whitelist, and hands it records; what the
    builder makes of them is outside the program.  A field declared
    without attributes has boost 1. *)

Module Builder.
Record t := mk {
  _ref : jsstring;
  _fields : list (jsstring * Z);
  metadataWhitelist : list jsstring;
  documents : list IndexRecord
}.

Definition init : t := mk (js "id") [] [] [].

Definition ref (f : jsstring) (b : t) : t :=
  mk f (_fields b) (metadataWhitelist b) (documents b).

Definition field (f : jsstring) (boost : option Z) (b : t) : t :=
  mk (_ref b) (_fields b ++ [(f, default 1 boost)]) (metadataWhitelist b)
    (documents b).

Definition set_metadataWhitelist (w : list jsstring) (b : t) : t :=
  mk (_ref b) (_fields b) w (documents b).

Definition add (r : IndexRecord) (b : t) : t :=
  mk (_ref b) (_fields b) (metadataWhitelist b) (documents b ++ [r]).
End Builder.

(** [lunr(config)] runs [config] on a fresh builder and builds the index;
    the index is represented by the builder it is built from. *)
Definition lunr (config : Builder.t -> Builder.t) : Builder.t := config Builder.init.

(** The value [generateIndex] returns: [{}] or [{index, store}].  The
    store is an object used as a map from url to document. *)
Inductive result : Type :=
| EmptyObject
| IndexAndStore (index : Builder.t) (store : gmap jsstring Doc.t).

Definition keys (r : result) : list jsstring :=
  match r with
  | EmptyObject => []
  | IndexAndStore _ _ => [js "index"; js "store"]
  end.

(** ** generateIndex *)

Section GenerateIndex.

Variable skips_text : jsstring -> bool.

(** [entities.decode] of the entity library. *)
Variable decode : jsstring -> jsstring.

(** Lines 23-28. *)
Definition site_url (playbook : Playbook.t) : jsstring :=
  let siteUrl := Playbook.site_url playbook in
  let siteUrl :=
    match siteUrl with
    | None => []
    | Some [] => []
    | Some s => s
    end in
  if str_eqb (charAt siteUrl (Z.of_nat (length siteUrl) - 1)) (js "/")
  then substr siteUrl 0 (Z.of_nat (length siteUrl) - 1)
  else siteUrl.

(** Line 38: [$('article.doc')]. *)
Definition article (page : Page.t) : list ref :=
  find [] sel_article_doc [root (Page.contents page)].

(** Line 39: [$('h1', article)]. *)
Definition h1 (page : Page.t) : list ref := find [] sel_h1 (article page).

(** Line 41: the tree once [$h1.remove()] is done. *)
Definition h1_removed (page : Page.t) : list path := remove [] (h1 page).

(** Line 43: [$('h2,h3,h4,h5,h6', article)], selected once, before the
    loop. *)
Definition subheadings (page : Page.t) : list ref :=
  find (h1_removed page) sel_h2_h6 (article page).

(** Lines 44-53, one turn of [each]: the state is the tree (its detached
    positions) and the [titles] array.  An [id] that is missing or empty
    is falsy. *)
Definition each_title (st : list path * list HeadingRef.t) (title : ref)
  : list path * list HeadingRef.t :=
  let '(cut, titles) := st in
  let titles :=
    match attr title.2 (js "id") with
    | Some (c :: v) =>
        titles ++ [HeadingRef.mk (text skips_text cut title.1 title.2) (c :: v)]
    | _ => titles
    end in
  (remove cut [title], titles).

(** Lines 42-54: the loop, from the tree without the h1 headings. *)
Definition each_subheading (page : Page.t) : list path * list HeadingRef.t :=
  fold_left each_title (subheadings page) (h1_removed page, []).

(** Line 57: [article.text()] after the loop. *)
Definition article_text (page : Page.t) : jsstring :=
  text_of skips_text (each_subheading page).1 (article page).

(** Lines 33-76: the function mapped over the pages. *)
Definition extract (siteUrl : jsstring) (page : Page.t) : Doc.t :=
  let documentTitle := text_of skips_text [] (h1 page) in
  let titles := (each_subheading page).2 in
  let text := article_text page in
  let text := decode text in
  let text := clean text in
  Doc.mk text documentTitle (Src.component (Page.src page))
    (Src.version (Page.src page)) (Src.stem (Page.src page))
    (siteUrl ++ Pub.url (Page.pub page)) titles.

(** Lines 88-96. *)
Definition add_doc (b : Builder.t) (doc : Doc.t) : Builder.t :=
  fold_left
    (fun b title =>
       Builder.add
         (HeadingRecord (HeadingRef.text title)
            (Doc.url doc ++ js "#" ++ HeadingRef.id title)) b)
    (Doc.titles doc)
    (Builder.add (PageRecord doc) b).

(** Lines 80-97: the configuration function given to [lunr]. *)
Definition configure (documents : list Doc.t) (self : Builder.t) : Builder.t :=
  let self := Builder.ref (js "url") self in
  let self := Builder.field (js "title") (Some 10) self in
  let self := Builder.field (js "name") None self in
  let self := Builder.field (js "text") None self in
  let self := Builder.field (js "component") None self in
  let self := Builder.set_metadataWhitelist [js "position"] self in
  fold_left add_doc documents self.

(** Line 32. *)
Definition documents (siteUrl : jsstring) (pages : list Page.t) : list Doc.t :=
  List.map (extract siteUrl) pages.

Definition generateIndex (playbook : Playbook.t) (pages : list Page.t) : result :=
  let siteUrl := site_url playbook in
  match pages with
  | [] => EmptyObject
  | _ =>
      let documentsStore : gmap jsstring Doc.t := ∅ in
      let documents := documents siteUrl pages in
      let lunrIndex := lunr (configure documents) in
      let documentsStore :=
        fold_left (fun store doc => <[Doc.url doc := doc]> store)
          documents documentsStore in
      IndexAndStore lunrIndex documentsStore
  end.

End GenerateIndex.

(** ** Packaging *)

(** Lines 115-117: the loop of [str2buffer] over the 16-bit array;
    [n] turns are left, [i] is the index. *)
Fixpoint str2buffer_loop (str : jsstring) (n i : nat) (a16 : list Z) : list Z :=
  match n with
  | O => a16
  | S n' => str2buffer_loop str n' (S i) (<[i := charCodeAt str i mod 65536]> a16)
  end.

(** The bytes of a 16-bit array, as a byte view of its buffer shows them:
    in the byte order of the host, low byte first on a little-endian
    one. *)
Definition bytes_of (little_endian : bool) (a16 : list Z) : list Z :=
  flat_map
    (fun w => if little_endian then [w mod 256; w / 256] else [w / 256; w mod 256])
    a16.

Definition str2buffer (little_endian : bool) (str : jsstring) : list Z :=
  let length := length str in
  let a16 := replicate length 0 in
  let a16 := str2buffer_loop str length 0 a16 in
  bytes_of little_endian a16.

(** Reading a buffer back as 16-bit units, which is what the search client
    does with the inflated bytes, in its own byte order. *)
Fixpoint buffer2str (little_endian : bool) (b : list Z) : jsstring :=
  match b with
  | b0 :: b1 :: r =>
      (if little_endian then b0 + 256 * b1 else b1 + 256 * b0)
        :: buffer2str little_endian r
  | _ => []
  end.

Section Packaging.

(** The byte order of the host, the value serialised, [JSON.stringify]
    and [JSON.parse], [pako.deflate] and [pako.inflate]. *)
Variable little_endian : bool.
Variable value : Type.
Variable stringify : value -> jsstring.
Variable parse : jsstring -> option value.
Variable deflate inflate : list Z -> list Z.

Definition compress (index : value) : list Z :=
  deflate (str2buffer little_endian (stringify index)).

Record File := mkFile {
  mediaType : jsstring;
  file_contents : list Z;
  src_stem : jsstring;
  out_path : jsstring;
  pub_url : jsstring;
  pub_rootPath : jsstring
}.

Definition createIndexFile (index : value) : File :=
  mkFile (js "application/gzip") (compress index) (js "search_index")
    (js "search_index.json.gz") (js "/search_index.json.gz") (js "").

(** The client side, on a host of the same byte order: inflate, read as
    16-bit units, parse. *)
Definition decompress (b : list Z) : option value :=
  parse (buffer2str little_endian (inflate b)).

End Packaging.

(** * Notions used to state the properties *)

(** The base URL without one trailing slash, in the words of the
    specification. *)
Definition trim_trailing_slash (s : jsstring) : jsstring :=
  match rev s with
  | c :: r => if c =? 47 then rev r else s
  | [] => s
  end.

(** [/\s+/g] by a space, read from left to right: [in_run] tells whether
    the previous unit was whitespace. *)
Fixpoint collapse (in_run : bool) (s : jsstring) : jsstring :=
  match s with
  | [] => []
  | c :: r =>
      if is_space c
      then (if in_run then collapse true r else 32 :: collapse true r)
      else c :: collapse false r
  end.

(** Every whitespace unit is a single space between two other units:
    [after_space] forbids a space at the head. *)
Fixpoint spaced (after_space : bool) (t : jsstring) : Prop :=
  match t with
  | [] => True
  | c :: r =>
      if is_space c then c = 32 /\ after_space = false /\ spaced true r
      else spaced false r
  end.

(** [trim] from the right end, unit by unit. *)
Fixpoint drop_trailing (s : jsstring) : jsstring :=
  match s with
  | [] => []
  | c :: r =>
      match drop_trailing r with
      | [] => if is_space c then [] else [c]
      | r' => c :: r'
      end
  end.

(** The shape of a cleaned text. *)
Definition single_spaced (t : jsstring) : Prop :=
  spaced true t /\ forall c, last t = Some c -> is_space c = false.

(** Child [i] of a node, whatever was detached. *)
Definition child (n : node) (i : nat) : option node :=
  match n with Element _ _ cs => cs !! i | _ => None end.

(** The node at a position of the loaded document. *)
Fixpoint node_at (top : node) (p : path) : option node :=
  match p with
  | [] => Some top
  | i :: q => match node_at top q with Some n => child n i | None => None end
  end.

Definition located (top : node) (r : ref) : Prop := node_at top r.1 = Some r.2.

(** [reach cut r r']: [r'] is [r] or is below it in the current tree. *)
Inductive reach (cut : list path) : ref -> ref -> Prop :=
| reach_refl r : reach cut r r
| reach_child r c r' : c ∈ children cut r -> reach cut c r' -> reach cut r r'.

(** The text of a node, leaving out the elements below it that satisfy
    [stop]: a function of the parsed tree alone. *)
Fixpoint text_outside (skips_text : jsstring -> bool) (stop : node -> bool)
    (n : node) : jsstring :=
  match n with
  | Text d => d
  | Comment _ => []
  | Element nm _ cs =>
      if skips_text nm then []
      else
        concat
          (List.map (fun c => if stop c then [] else text_outside skips_text stop c)
             cs)
  end.

Definition is_heading (n : node) : bool := sel_h1 n || sel_h2_h6 n.

(** The tree when the extraction is over. *)
Definition final_tree (skips_text : jsstring -> bool) (page : Page.t) : list path :=
  (each_subheading skips_text page).1.

(** Below a node of the article region: through one of its children. *)
Definition below (cut : list path) (context : list ref) (r : ref) : Prop :=
  exists c k, c ∈ context /\ k ∈ children cut c /\ reach cut k r.

(** The tree loaded from a page. *)
Definition tree (page : Page.t) : node := (root (Page.contents page)).2.

(** At or below a node of the article region. *)
Definition within (page : Page.t) (cut : list path) (r : ref) : Prop :=
  located (tree page) r /\ exists a, a ∈ article page /\ reach cut a r.

(** [x] lies strictly below [e] in the loaded document. *)
Definition strictly_below (x e : path) : Prop := e `suffix_of` x /\ e <> x.

(** A selection lists no node before one of its ancestors. *)
Definition parents_first (l : list ref) : Prop :=
  StronglySorted (fun x e => ~ strictly_below x.1 e.1) l.

(** Two start nodes whose subtrees do not interleave. *)
Definition apart (cut : list path) (k1 k2 : ref) : Prop :=
  ~ k2.1 `suffix_of` k1.1 /\ (k1.1 ∉ ancestors cut k2.1).

(** Two children of one node. *)
Definition siblings (c1 c2 : ref) : Prop :=
  length c1.1 = length c2.1 /\ c1.1 <> c2.1.

(** No entry of the result is on the parent chain of another. *)
Definition unrelated (cut : list path) (x y : ref) : Prop :=
  (y.1 ∉ ancestors cut x.1) /\ (x.1 ∉ ancestors cut y.1).

(** What a heading adds to [titles], its text being read in the tree
    [cut]. *)
Definition heading_ref (skips_text : jsstring -> bool) (cut : list path) (r : ref)
  : option HeadingRef.t :=
  match attr r.2 (js "id") with
  | Some (c :: v) => Some (HeadingRef.mk (text skips_text cut r.1 r.2) (c :: v))
  | _ => None
  end.

(** [x] comes before [y] in the document: [x] is an ancestor of [y], or
    the two lie below different children of a node, [x] below the
    earlier one. *)
Definition doc_before (x y : path) : Prop :=
  strictly_below y x \/
  exists p i j dx dy, x = dx ++ i :: p /\ y = dy ++ j :: p /\ (i < j)%nat.

Definition document_order (l : list ref) : Prop :=
  StronglySorted (fun x y => doc_before x.1 y.1) l.

(** Two children of the node at [p], the earlier one first. *)
Definition earlier_child (p : path) (c1 c2 : ref) : Prop :=
  exists i j, c1.1 = i :: p /\ c2.1 = j :: p /\ (i < j)%nat.

(** What a sub-heading adds to [titles]: its text outside the h1 headings,
    which are gone when the loop starts. *)
Definition heading_of (skips_text : jsstring -> bool) (r : ref)
  : option HeadingRef.t :=
  match attr r.2 (js "id") with
  | Some (c :: v) => Some (HeadingRef.mk (text_outside skips_text sel_h1 r.2) (c :: v))
  | _ => None
  end.

(** The records one document puts into the index. *)
Definition records_of (doc : Doc.t) : list IndexRecord :=
  PageRecord doc ::
  List.map
    (fun title =>
       HeadingRecord (HeadingRef.text title)
         (Doc.url doc ++ js "#" ++ HeadingRef.id title))
    (Doc.titles doc).

(** The store after the loop of lines 100-102. *)
Definition store_of (docs : list Doc.t) : gmap jsstring Doc.t :=
  fold_left (fun store doc => <[Doc.url doc := doc]> store) docs ∅.


(** The pattern of line 61 matches at no position of [s]. *)
Fixpoint tag_free (s : jsstring) : Prop :=
  match s with
  | [] => True
  | c :: r => re_tag (c :: r) = None /\ tag_free r
  end.

(** [s] holds a tag in the sense of the pattern: a [<], one or more units
    other than [>], a [>]. *)
Definition has_tag (s : jsstring) : Prop :=
  exists pre body post,
    body <> [] /\ (62 ∉ body) /\ s = pre ++ 60 :: body ++ 62 :: post.

(** The units of a text that are not whitespace, in their order. *)
Definition non_space (s : jsstring) : jsstring :=
  List.filter (fun c => negb (is_space c)) s.

(** The [id] a sub-heading is recorded with; a missing or empty one is
    none. *)
Definition heading_id (r : ref) : option jsstring :=
  match attr r.2 (js "id") with
  | Some (c :: v) => Some (c :: v)
  | _ => None
  end.

(** The document of a page record. *)
Definition record_page (r : IndexRecord) : option Doc.t :=
  match r with PageRecord doc => Some doc | HeadingRecord _ _ => None end.

(** The value a record has in the reference field [url]. *)
Definition record_ref (r : IndexRecord) : jsstring :=
  match r with PageRecord doc => Doc.url doc | HeadingRecord _ url => url end.

(** ** Concrete inputs *)

(** A [text()] that leaves no element out. *)
Definition skip_none (nm : jsstring) : bool := false.

(** A literal as a pattern. *)
Definition re_lit (lit s : jsstring) : option nat :=
  if bool_decide (take (length lit) s = lit) then Some (length lit) else None.

(** A decoder of [&lt;], [&gt;] and [&amp;] only, for the examples. *)
Definition decode_basic (s : jsstring) : jsstring :=
  replace (re_lit (js "&amp;")) (js "&")
    (replace (re_lit (js "&gt;")) (js ">")
       (replace (re_lit (js "&lt;")) (js "<") s)).

Definition el (name : string) (attribs : list (string * string))
    (children : list node) : node :=
  Element (js name) (List.map (fun a => (js a.1, js a.2)) attribs) children.

Definition page_of (contents : list node) : Page.t :=
  Page.mk contents (Src.mk (js "docs") (js "1.0") (js "index"))
    (Pub.mk (js "/docs/1.0/index.html")).

(** Two h1 headings, and a body that repeats the first. *)
Definition page_two_h1 : Page.t :=
  page_of
    [el "article" [("class", "doc")%string]
       [el "h1" [] [Text (js "Intro")];
        el "p" [] [Text (js "Intro to the tool")];
        el "h1" [] [Text (js "Usage")]]].

(** A sub-heading inside the h1, and one whose words come back in the
    body. *)
Definition page_setup : Page.t :=
  page_of
    [el "article" [("class", "doc")%string]
       [el "h1" []
          [Text (js "Guide");
           el "span" [] [el "h2" [("id", "c")%string] [Text (js "Part")]]];
        el "h2" [("id", "a")%string] [Text (js "Setup")];
        el "p" [] [Text (js "Setup steps")];
        el "h3" [] [Text (js "More")];
        el "p" [] [Text (js "x")]]].

(** A sub-heading inside the h1. *)
Definition page_h2_in_h1 : Page.t :=
  page_of
    [el "article" [("class", "doc")%string]
       [el "h1" []
          [Text (js "Guide");
           el "span" [] [el "h2" [("id", "a")%string] [Text (js "Setup")]]];
        el "p" [] [Text (js "Body")]]].

(** An article region inside the h1 of another. *)
Definition page_nested_article : Page.t :=
  page_of
    [el "article" [("class", "doc")%string]
       [el "h1" []
          [Text (js "T");
           el "article" [("class", "a doc")%string]
             [Text (js "inner"); el "h2" [("id", "x")%string] [Text (js "X")]]];
        el "h2" [("id", "y")%string]
          [Text (js "Y"); el "div" [] [el "h3" [("id", "z")%string] [Text (js "Z")]]];
        Text (js " tail")]].

(** A page with a section [s], and a page published at the url of that
    section. *)
Definition page_with_section : Page.t :=
  Page.mk
    [el "article" [("class", "doc")%string]
       [el "h2" [("id", "s")%string] [Text (js "S")]; Text (js "one")]]
    (Src.mk (js "docs") (js "1.0") (js "p")) (Pub.mk (js "/p.html")).


(** No article region. *)
Definition page_no_article : Page.t :=
  page_of [el "div" [("class", "doc")%string] [el "h1" [] [Text (js "T")]; Text (js "body")]].

(** Prose that names a tag, escaped once more than the parser undoes. *)
Definition page_prose : Page.t :=
  page_of
    [el "article" [("class", "doc")%string]
       [el "p" [] [Text (js "Use &lt;b&gt; for bold")]]].

(** A serialiser with its parser, and a compressor with its inflater, for
    the examples. *)
Definition braces (s : jsstring) : jsstring := js "{" ++ s ++ js "}".

Definition unbraces (s : jsstring) : option jsstring :=
  Some (take (length s - 2) (drop 1 s)).

Definition store_block (b : list Z) : list Z := 120 :: b.

Definition read_block (b : list Z) : list Z := drop 1 b.

(** * Properties *)

(** ** The site URL and the document url *)

Lemma charAt_last (s : jsstring) (c : Z) :
  charAt (s ++ [c]) (Z.of_nat (length (s ++ [c])) - 1) = [c].
Proof.
  unfold charAt. rewrite length_app. simpl.
  replace (Z.of_nat (length s + 1) - 1) with (Z.of_nat (length s)) by lia.
  destruct (Z.ltb_spec (Z.of_nat (length s)) 0) as [H|H]; [lia|].
  rewrite Nat2Z.id.
  rewrite lookup_app_r by lia. rewrite Nat.sub_diag. reflexivity.
Qed.

Lemma substr_init (s : jsstring) (c : Z) :
  substr (s ++ [c]) 0 (Z.of_nat (length (s ++ [c])) - 1) = s.
Proof.
  unfold substr. rewrite length_app. simpl.
  replace (Z.of_nat (length s + 1) - 1) with (Z.of_nat (length s)) by lia.
  rewrite Nat2Z.id. simpl. rewrite drop_0.
  rewrite take_app_length. reflexivity.
Qed.

Lemma site_url_spec (playbook : Playbook.t) :
  site_url playbook = trim_trailing_slash (default [] (Playbook.site_url playbook)).
Proof.
  unfold site_url. destruct playbook as [[s|]]; simpl; [|reflexivity].
  destruct s as [|c0 s0]; [reflexivity|].
  generalize (c0 :: s0). clear. intros s.
  destruct s as [|c s _] using rev_ind; [reflexivity|].
  rewrite charAt_last, substr_init.
  unfold trim_trailing_slash. rewrite rev_app_distr. simpl.
  rewrite rev_involutive.
  unfold str_eqb. destruct (Z.eqb_spec c 47) as [->|Hc].
  - rewrite bool_decide_eq_true_2; reflexivity.
  - rewrite bool_decide_eq_false_2; [reflexivity|].
    intros H. injection H as ->. apply Hc. reflexivity.
Qed.

Lemma trim_trailing_slash_app (base : jsstring) :
  trim_trailing_slash (base ++ js "/") = base.
Proof.
  unfold trim_trailing_slash. rewrite rev_app_distr. simpl.
  apply rev_involutive.
Qed.

(** ** The replacements of lines 61-65 *)

Example clean_ex1 :
  clean (js "  a <b>bold</b> <> x>y <i
  z	 ") = js "a bold <> x>y <i z".
Proof. vm_compute. reflexivity. Qed.

Lemma replace_from_nil m rep k : replace_from m rep k [] = [].
Proof. destruct k; reflexivity. Qed.

(** Dropping the rest of a match and searching on. *)
Lemma replace_from_skip m rep (k : nat) (s : jsstring) :
  replace_from m rep k s = replace m rep (drop k s).
Proof.
  revert s. induction k as [|k IH]; intros s; [reflexivity|].
  destruct s as [|c r]; [reflexivity|]. simpl. apply IH.
Qed.

(** [/\n/g] and [/\r/g] by a space: unit by unit. *)
Lemma replace_unit (u : Z) (s : jsstring) :
  replace (re_unit u) (js " ") s = List.map (fun c => if c =? u then 32 else c) s.
Proof.
  unfold replace. induction s as [|c r IH]; [reflexivity|].
  simpl. destruct (c =? u); simpl; rewrite IH; reflexivity.
Qed.

Lemma re_spaces_cons (c : Z) (r : jsstring) :
  re_spaces (c :: r) =
  if is_space c then Some (S (length (take_while is_space r))) else None.
Proof. unfold re_spaces. simpl. destruct (is_space c); reflexivity. Qed.

Lemma replace_spaces_collapse (s : jsstring) :
  replace re_spaces (js " ") s = collapse false s
  /\ replace_from re_spaces (js " ") (length (take_while is_space s)) s
     = collapse true s.
Proof.
  unfold replace. induction s as [|c r [IH0 IH1]]; [split; reflexivity|].
  cbn [replace_from collapse take_while]. rewrite re_spaces_cons.
  destruct (is_space c) eqn:Hc; cbn [length].
  - rewrite IH1. split; reflexivity.
  - rewrite IH0. split; reflexivity.
Qed.

Lemma spaced_weaken b t : spaced true t -> spaced b t.
Proof.
  destruct t as [|c r]; simpl; [trivial|].
  destruct (is_space c); [intros (_ & H & _); discriminate | trivial].
Qed.

Lemma collapse_spaced (b : bool) (s : jsstring) : spaced b (collapse b s).
Proof.
  revert b. induction s as [|c r IH]; intros b; simpl; [trivial|].
  destruct (is_space c) eqn:Hc.
  - destruct b; [apply IH|]. simpl. split; [reflexivity|]. split; [reflexivity|apply IH].
  - simpl. rewrite Hc. apply IH.
Qed.

Lemma drop_while_spaced b (t : jsstring) :
  spaced b t -> spaced true (drop_while is_space t).
Proof.
  revert b. induction t as [|c r IH]; intros b; simpl; [trivial|].
  destruct (is_space c) eqn:Hc.
  - intros (_ & _ & H). eapply IH, H.
  - intros H. simpl. rewrite Hc. exact H.
Qed.

Lemma drop_trailing_snoc (s : jsstring) (c : Z) :
  drop_trailing (s ++ [c]) = if is_space c then drop_trailing s else s ++ [c].
Proof.
  induction s as [|d r IH]; simpl.
  - destruct (is_space c); reflexivity.
  - rewrite IH. destruct (is_space c) eqn:Hc; [reflexivity|].
    destruct r; reflexivity.
Qed.

Lemma rev_drop_while_rev (s : jsstring) :
  rev (drop_while is_space (rev s)) = drop_trailing s.
Proof.
  induction s as [|c r IH] using rev_ind; [reflexivity|].
  rewrite rev_app_distr, drop_trailing_snoc. simpl.
  destruct (is_space c); [exact IH|].
  simpl. rewrite rev_involutive. reflexivity.
Qed.

Lemma trim_spec (s : jsstring) : trim s = drop_trailing (drop_while is_space s).
Proof. apply rev_drop_while_rev. Qed.

Lemma drop_trailing_spaced b (t : jsstring) :
  spaced b t -> spaced b (drop_trailing t).
Proof.
  revert b. induction t as [|c r IH]; intros b; simpl; [trivial|].
  destruct (is_space c) eqn:Hc.
  - intros (H1 & H2 & H3). specialize (IH _ H3).
    destruct (drop_trailing r) as [|d r'] eqn:Hr; [exact I|].
    change (spaced b (c :: d :: r')). cbn [spaced]. rewrite Hc. auto.
  - intros H. specialize (IH _ H).
    destruct (drop_trailing r) as [|d r'] eqn:Hr.
    + cbn [spaced]. rewrite Hc. exact I.
    + change (spaced b (c :: d :: r')). cbn [spaced]. rewrite Hc. exact IH.
Qed.

Lemma drop_trailing_last (t : jsstring) (c : Z) :
  last (drop_trailing t) = Some c -> is_space c = false.
Proof.
  induction t as [|d r IH]; simpl; [discriminate|].
  destruct (drop_trailing r) as [|e r'] eqn:Hr.
  - destruct (is_space d) eqn:Hd; simpl; [discriminate|].
    intros [= <-]. exact Hd.
  - intros H. apply IH. exact H.
Qed.

Lemma clean_spec (s : jsstring) :
  clean s =
  drop_trailing (drop_while is_space
    (collapse false
       (List.map (fun c => if c =? 13 then 32 else c)
          (List.map (fun c => if c =? 10 then 32 else c) (strip_tags s))))).
Proof.
  unfold clean. rewrite trim_spec.
  rewrite (proj1 (replace_spaces_collapse _)), !replace_unit. reflexivity.
Qed.

Lemma clean_single_spaced (s : jsstring) : single_spaced (clean s).
Proof.
  rewrite clean_spec. split.
  - apply drop_trailing_spaced. eapply drop_while_spaced. apply collapse_spaced.
  - apply drop_trailing_last.
Qed.



(** ** The tree: children, reachability, positions *)

Lemma node_ind' (P : node -> Prop) :
  (forall d, P (Text d)) ->
  (forall d, P (Comment d)) ->
  (forall nm a cs, Forall P cs -> P (Element nm a cs)) ->
  forall n, P n.
Proof.
  intros HT HC HE. fix IH 1. intros [d|d|nm a cs]; [apply HT|apply HC|].
  apply HE. induction cs as [|c cs IHcs]; constructor; [apply IH|exact IHcs].
Qed.

Lemma removed_true cut p : removed cut p = true <-> p ∈ cut.
Proof. unfold removed. apply bool_decide_eq_true. Qed.

Lemma removed_false cut p : removed cut p = false <-> p ∉ cut.
Proof. unfold removed. apply bool_decide_eq_false. Qed.

Lemma elem_of_children_from cut p i cs (q : path) (c : node) :
  (q, c) ∈ children_from cut p i cs <->
  exists j, q = (i + j)%nat :: p /\ cs !! j = Some c /\ q ∉ cut.
Proof.
  revert i. induction cs as [|d cs IH]; intros i; simpl.
  - split; [intros H; inversion H|intros (j & _ & H & _); discriminate].
  - rewrite elem_of_app, IH. split.
    + intros [H|(j & -> & Hj & Hq)].
      * destruct (removed cut (i :: p)) eqn:Hr; [inversion H|].
        apply list_elem_of_singleton in H. injection H as -> ->.
        exists 0%nat. rewrite Nat.add_0_r. split; [reflexivity|]. split; [reflexivity|].
        apply removed_false, Hr.
      * exists (S j). rewrite Nat.add_succ_r. auto.
    + intros (j & -> & Hj & Hq). destruct j as [|j].
      * left. simpl in Hj. injection Hj as ->. rewrite Nat.add_0_r in *.
        apply removed_false in Hq. rewrite Hq. apply list_elem_of_singleton. reflexivity.
      * right. exists j. rewrite Nat.add_succ_r in *. auto.
Qed.

Lemma elem_of_children cut (r c : ref) :
  c ∈ children cut r <->
  exists i, c.1 = i :: r.1 /\ child r.2 i = Some c.2 /\ c.1 ∉ cut.
Proof.
  destruct r as [p n], c as [q m]. unfold children. simpl.
  destruct n as [d|d|nm a cs]; simpl.
  - split; [intros H; inversion H|intros (i & _ & H & _); discriminate].
  - split; [intros H; inversion H|intros (i & _ & H & _); discriminate].
  - rewrite elem_of_children_from. simpl. reflexivity.
Qed.

Lemma reach_trans cut r1 r2 r3 : reach cut r1 r2 -> reach cut r2 r3 -> reach cut r1 r3.
Proof.
  induction 1 as [|r c r' Hc _ IH]; [trivial|].
  intros H. eapply reach_child; [exact Hc|]. apply IH, H.
Qed.

Lemma reach_snoc cut r1 r2 c : reach cut r1 r2 -> c ∈ children cut r2 -> reach cut r1 c.
Proof.
  intros H Hc. eapply reach_trans; [exact H|].
  eapply reach_child; [exact Hc|apply reach_refl].
Qed.

Lemma children_located top cut r c :
  located top r -> c ∈ children cut r -> located top c.
Proof.
  unfold located. intros Hr (i & Hp & Hc & _)%elem_of_children.
  rewrite Hp. simpl. rewrite Hr. exact Hc.
Qed.

Lemma reach_located top cut r r' : reach cut r r' -> located top r -> located top r'.
Proof.
  induction 1 as [|r c r' Hc _ IH]; [trivial|].
  intros H. apply IH. eapply children_located; eauto.
Qed.

(** Detaching more nodes only shrinks what is reachable. *)
Lemma children_mono cut cut' r c :
  cut ⊆ cut' -> c ∈ children cut' r -> c ∈ children cut r.
Proof.
  intros Hs (i & H1 & H2 & H3)%elem_of_children. apply elem_of_children.
  exists i. split; [exact H1|]. split; [exact H2|]. intros H. apply H3, Hs, H.
Qed.

Lemma reach_mono cut cut' r r' : cut ⊆ cut' -> reach cut' r r' -> reach cut r r'.
Proof.
  intros Hs. induction 1 as [|r c r' Hc _ IH]; [apply reach_refl|].
  eapply reach_child; [|exact IH]. eapply children_mono; eauto.
Qed.

(** What is reached through a child is attached. *)
Lemma reach_child_attached cut r c r' :
  c ∈ children cut r -> reach cut c r' -> r'.1 ∉ cut.
Proof.
  intros Hc H. revert r Hc. induction H as [c|c d r' Hd _ IH]; intros r Hc.
  - apply elem_of_children in Hc as (i & _ & _ & H). exact H.
  - eapply IH, Hd.
Qed.

(** ** [walk] and [text] through [children] *)

Lemma walk_eq cut p nm a cs :
  walk cut p (Element nm a cs) =
  (p, Element nm a cs) ::
  flat_map (fun c => walk cut c.1 c.2) (children cut (p, Element nm a cs)).
Proof.
  unfold children. simpl. f_equal. generalize 0%nat.
  induction cs as [|c cs IH]; intros i; [reflexivity|].
  simpl. rewrite IH. rewrite flat_map_app.
  destruct (removed cut (i :: p)); simpl; [reflexivity|].
  rewrite app_nil_r. reflexivity.
Qed.

Lemma text_eq skips cut p nm a cs :
  text skips cut p (Element nm a cs) =
  if skips nm then []
  else concat (List.map (fun c => text skips cut c.1 c.2)
                 (children cut (p, Element nm a cs))).
Proof.
  unfold children. simpl. destruct (skips nm); [reflexivity|]. generalize 0%nat.
  induction cs as [|c cs IH]; intros i; [reflexivity|].
  rewrite IH. cbn [children_from]. rewrite List.map_app, concat_app.
  destruct (removed cut (i :: p)); simpl; [reflexivity|].
  rewrite app_nil_r. reflexivity.
Qed.

Lemma child_In (n : node) (i : nat) (c : node) nm a cs :
  n = Element nm a cs -> child n i = Some c -> c ∈ cs.
Proof. intros -> H. simpl in H. eapply list_elem_of_lookup_2, H. Qed.

(** [walk] lists the elements reachable from its node. *)
Lemma elem_of_walk cut (n : node) : forall (p : path) (r : ref),
  r ∈ walk cut p n <-> isTag r.2 = true /\ reach cut (p, n) r.
Proof.
  induction n as [d|d|nm a cs IH] using node_ind'; intros p r.
  - simpl. split; [intros H; inversion H|].
    intros [Ht H]. inversion H; subst; [discriminate|].
    match goal with H : _ ∈ children _ _ |- _ => inversion H end.
  - simpl. split; [intros H; inversion H|].
    intros [Ht H]. inversion H; subst; [discriminate|].
    match goal with H : _ ∈ children _ _ |- _ => inversion H end.
  - rewrite walk_eq. rewrite elem_of_cons. split.
    + intros [->|H]; [split; [reflexivity|apply reach_refl]|].
      apply list_elem_of_In, in_flat_map in H as (c & Hc & H).
      apply list_elem_of_In in Hc, H.
      assert (Hin : c.2 ∈ cs).
      { apply elem_of_children in Hc as (i & _ & Hc & _). eapply child_In; eauto. }
      rewrite Forall_forall in IH. apply (IH _ Hin) in H as [Ht H].
      split; [exact Ht|]. eapply reach_child; [exact Hc|].
      destruct c; exact H.
    + intros [Ht H]. inversion H as [|r0 c r' Hc Hr]; subst; [left; reflexivity|].
      right. apply list_elem_of_In, in_flat_map. exists c.
      split; [apply list_elem_of_In, Hc|]. apply list_elem_of_In.
      assert (Hin : c.2 ∈ cs).
      { apply elem_of_children in Hc as (i & _ & Hc' & _). eapply child_In; eauto. }
      rewrite Forall_forall in IH. apply (IH _ Hin). split; [exact Ht|].
      destruct c; exact Hr.
Qed.

(** ** The parent chain and [removeSubsets] *)

Lemma ancestors_self cut p : p ∈ ancestors cut p.
Proof. destruct p; simpl; apply elem_of_cons; left; reflexivity. Qed.

Lemma ancestors_trans cut (a b p : path) :
  a ∈ ancestors cut p -> b ∈ ancestors cut a -> b ∈ ancestors cut p.
Proof.
  induction p as [|i q IH]; simpl.
  - intros ->%list_elem_of_singleton. trivial.
  - intros [->|Ha]%elem_of_cons; [trivial|].
    destruct (removed cut (i :: q)); [inversion Ha|].
    intros Hb. apply elem_of_cons. right. apply IH; assumption.
Qed.

(** A node found on the parent chain of another reaches it. *)
Lemma ancestors_reach top cut (q : path) : forall (m : node) (a : path) (n : node),
  located top (q, m) -> located top (a, n) -> a ∈ ancestors cut q ->
  reach cut (a, n) (q, m).
Proof.
  unfold located. simpl. induction q as [|i q IH]; intros m a n Hq Ha; simpl.
  - intros ->%list_elem_of_singleton. simpl in *.
    replace n with m by congruence. apply reach_refl.
  - intros [->|H]%elem_of_cons.
    + replace n with m by congruence. apply reach_refl.
    + destruct (removed cut (i :: q)) eqn:Hr; [inversion H|].
      simpl in Hq. destruct (node_at top q) as [par|] eqn:Hpar; [|discriminate].
      eapply reach_snoc; [apply (IH par a n); auto|].
      apply elem_of_children. exists i. simpl. split; [reflexivity|].
      split; [exact Hq|]. apply removed_false, Hr.
Qed.

Lemma elem_of_rev {A} (l : list A) (x : A) : x ∈ rev l <-> x ∈ l.
Proof. rewrite !list_elem_of_In. symmetry. apply in_rev. Qed.

Lemma removeSubsets_loop_subset cut todo : forall kept y,
  y ∈ removeSubsets_loop cut todo kept -> y ∈ todo \/ y ∈ kept.
Proof.
  induction todo as [|x before IH]; intros kept y; simpl; [auto|].
  destruct (existsb _ _).
  - intros [H|H]%IH; [left; apply elem_of_cons; auto|auto].
  - intros [H|H]%IH; [left; apply elem_of_cons; auto|].
    apply elem_of_cons in H as [->|H]; [left; apply elem_of_cons; auto|auto].
Qed.

Lemma removeSubsets_subset cut nodes y :
  y ∈ removeSubsets cut nodes -> y ∈ nodes.
Proof.
  unfold removeSubsets. intros [H|H]%removeSubsets_loop_subset.
  - apply elem_of_rev, H.
  - inversion H.
Qed.

(** Every entry has itself or one of its ancestors left in the result. *)
Lemma removeSubsets_loop_covers cut todo : forall kept x,
  x ∈ todo ++ kept ->
  exists y, y ∈ removeSubsets_loop cut todo kept /\ y.1 ∈ ancestors cut x.1.
Proof.
  induction todo as [|h before IH]; intros kept x Hx; simpl.
  - exists x. split; [exact Hx|apply ancestors_self].
  - simpl in Hx. destruct (existsb _ _) eqn:He.
    + apply elem_of_cons in Hx as [->|Hx]; [|apply IH, Hx].
      apply existsb_exists in He as (a & Ha & Hin).
      apply list_elem_of_In in Ha. apply bool_decide_eq_true in Hin.
      assert (exists x', x' ∈ before ++ kept /\ x'.1 = a) as (x' & Hx' & <-).
      { rewrite <- fmap_app in Hin. apply list_elem_of_fmap in Hin as (x' & -> & Hx').
        exists x'. auto. }
      destruct (IH kept x' Hx') as (y & Hy & Hya).
      exists y. split; [exact Hy|]. eapply ancestors_trans; eauto.
    + apply IH. apply elem_of_cons in Hx as [->|Hx].
      * apply elem_of_app. right. apply elem_of_cons. left. reflexivity.
      * apply elem_of_app in Hx as [Hx|Hx]; apply elem_of_app; [left; exact Hx|].
        right. apply elem_of_cons. right. exact Hx.
Qed.

Lemma removeSubsets_covers cut nodes x :
  x ∈ nodes ->
  exists y, y ∈ removeSubsets cut nodes /\ y.1 ∈ ancestors cut x.1.
Proof.
  intros Hx. apply removeSubsets_loop_covers.
  rewrite app_nil_r. apply elem_of_rev, Hx.
Qed.

(** ** What [find] selects *)

Lemma elem_of_starts cut context k :
  k ∈ starts cut context <->
  isTag k.2 = true /\ exists c, c ∈ context /\ k ∈ children cut c.
Proof.
  unfold starts. rewrite list_elem_of_In, in_flat_map. split.
  - intros (c & Hc & H). apply filter_In in H as [H Ht].
    split; [exact Ht|]. exists c. split; apply list_elem_of_In; assumption.
  - intros (Ht & c & Hc & H). exists c. split; [apply list_elem_of_In, Hc|].
    apply filter_In. split; [apply list_elem_of_In, H|exact Ht].
Qed.

Lemma elem_of_findAll cut test elems r :
  r ∈ findAll cut test elems <->
  test r.2 = true /\ isTag r.2 = true /\ exists k, k ∈ elems /\ reach cut k r.
Proof.
  unfold findAll. rewrite list_elem_of_In, filter_In, in_flat_map. split.
  - intros [(k & Hk & H) Ht]. apply list_elem_of_In, elem_of_walk in H as [Hr H].
    split; [exact Ht|]. split; [exact Hr|]. exists k.
    split; [apply list_elem_of_In, Hk|]. destruct k; exact H.
  - intros (Ht & Hr & k & Hk & H). split; [|exact Ht].
    exists k. split; [apply list_elem_of_In, Hk|].
    apply list_elem_of_In, elem_of_walk. split; [exact Hr|]. destruct k; exact H.
Qed.

(** A selected element satisfies the selector and lies below a context
    node. *)
Lemma find_sound cut test context r :
  r ∈ find cut test context ->
  test r.2 = true /\ isTag r.2 = true /\
  exists c k, c ∈ context /\ k ∈ children cut c /\ reach cut k r.
Proof.
  unfold find.
  intros (Ht & Hr & k & Hk & H)%elem_of_findAll.
  split; [exact Ht|]. split; [exact Hr|].
  apply removeSubsets_subset, elem_of_starts in Hk as (_ & c & Hc & Hk).
  exists c, k. auto.
Qed.

(** Every element below a context node that satisfies the selector is
    selected. *)
Lemma find_complete top cut test context c k r :
  (forall c, c ∈ context -> located top c) ->
  c ∈ context -> k ∈ children cut c -> reach cut k r ->
  isTag r.2 = true -> test r.2 = true ->
  r ∈ find cut test context.
Proof.
  intros Hloc Hc Hk Hr Htag Ht. unfold find.
  apply elem_of_findAll. split; [exact Ht|]. split; [exact Htag|].
  assert (Hkt : isTag k.2 = true).
  { inversion Hr as [|k0 d r' Hd _]; subst; [exact Htag|].
    apply elem_of_children in Hd as (i & _ & Hd & _).
    destruct (k.2); simpl in Hd; try discriminate. reflexivity. }
  assert (Hks : k ∈ starts cut context).
  { apply elem_of_starts. split; [exact Hkt|]. exists c. auto. }
  destruct (removeSubsets_covers cut _ _ Hks) as (y & Hy & Hya).
  exists y. split; [exact Hy|]. eapply reach_trans; [|exact Hr].
  apply removeSubsets_subset, elem_of_starts in Hy as (_ & c' & Hc' & Hy).
  destruct y as [py ny], k as [pk nk]. simpl in *.
  eapply (ancestors_reach top).
  - eapply children_located; [apply Hloc, Hc|exact Hk].
  - eapply children_located; [apply Hloc, Hc'|exact Hy].
  - exact Hya.
Qed.

Lemma find_located top cut test context r :
  (forall c, c ∈ context -> located top c) ->
  r ∈ find cut test context -> located top r.
Proof.
  intros Hloc (_ & _ & c & k & Hc & Hk & Hr)%find_sound.
  eapply reach_located; [exact Hr|].
  eapply children_located; [apply Hloc, Hc|exact Hk].
Qed.

Lemma find_nil cut test : find cut test [] = [].
Proof. reflexivity. Qed.

(** ** The text outside some elements *)

Section TextOutside.

Variable skips_text : jsstring -> bool.

Lemma concat_children_from {B} cut p (f : ref -> list B) (g : node -> list B) cs :
  forall i,
  (forall j c, cs !! j = Some c ->
     (if removed cut ((i + j)%nat :: p) then [] else f ((i + j)%nat :: p, c)) = g c) ->
  concat (List.map f (children_from cut p i cs)) = concat (List.map g cs).
Proof.
  induction cs as [|c cs IH]; intros i H; [reflexivity|].
  simpl. rewrite List.map_app, concat_app. f_equal.
  - specialize (H 0%nat c eq_refl). rewrite Nat.add_0_r in H. rewrite <- H.
    destruct (removed cut (i :: p)); simpl; [reflexivity|apply app_nil_r].
  - apply IH. intros j d Hj. rewrite Nat.add_succ_l, <- Nat.add_succ_r.
    apply (H (S j)). exact Hj.
Qed.

(** When the detached positions below the nodes of [Inv] are exactly
    those of the elements that satisfy [stop], the text read in the
    current tree is the text outside these elements. *)
Lemma text_text_outside cut (stop : node -> bool) (Inv : ref -> Prop) :
  (forall r i c, Inv r -> child r.2 i = Some c ->
     (i :: r.1 ∈ cut <-> stop c = true) /\ (stop c = false -> Inv (i :: r.1, c))) ->
  forall n p, Inv (p, n) -> text skips_text cut p n = text_outside skips_text stop n.
Proof.
  intros Hinv. induction n as [d|d|nm a cs IH] using node_ind'; intros p Hp;
    [reflexivity|reflexivity|].
  rewrite text_eq. simpl. destruct (skips_text nm); [reflexivity|].
  apply concat_children_from. intros j c Hj. simpl.
  destruct (Hinv _ j c Hp Hj) as [H1 H2]. simpl in H1, H2.
  destruct (stop c) eqn:Hs.
  - rewrite (proj2 (removed_true _ _)); [reflexivity|]. apply H1. reflexivity.
  - rewrite (proj2 (removed_false _ _)).
    + rewrite Forall_forall in IH. apply IH; [eapply list_elem_of_lookup_2, Hj|].
      apply H2. reflexivity.
    + intros H. apply H1 in H. discriminate.
Qed.

(** With nothing detached, [text] reads the whole text of a node. *)
Lemma text_whole n p :
  text skips_text [] p n = text_outside skips_text (fun _ => false) n.
Proof.
  apply (text_text_outside [] _ (fun _ => True)); [|exact I].
  intros r i c _ _. split; [|trivial]. split; [intros H; inversion H|discriminate].
Qed.

End TextOutside.

(** ** The extraction of one page *)

Lemma fold_each_title_cut skips (l : list ref) : forall cut titles,
  (fold_left (each_title skips) l (cut, titles)).1 = cut ++ l.*1.
Proof.
  induction l as [|r l IH]; intros cut titles; simpl.
  - rewrite app_nil_r. reflexivity.
  - rewrite IH. unfold remove. simpl. rewrite <- app_assoc. reflexivity.
Qed.

Section Extraction.

Variable skips_text : jsstring -> bool.
Variable page : Page.t.

Lemma final_tree_eq :
  final_tree skips_text page = (h1 page).*1 ++ (subheadings page).*1.
Proof. unfold final_tree, each_subheading. apply fold_each_title_cut. Qed.

Lemma h1_removed_eq : h1_removed page = (h1 page).*1.
Proof. reflexivity. Qed.

Lemma h1_removed_final : h1_removed page ⊆ final_tree skips_text page.
Proof.
  rewrite final_tree_eq, h1_removed_eq. intros q H. apply elem_of_app. auto.
Qed.

Lemma root_located : forall c, c ∈ [root (Page.contents page)] -> located (tree page) c.
Proof. intros c ->%list_elem_of_singleton. reflexivity. Qed.

Lemma article_located : forall a, a ∈ article page -> located (tree page) a.
Proof. intros a Ha. eapply find_located; [apply root_located|exact Ha]. Qed.

Lemma h1_located : forall r, r ∈ h1 page -> located (tree page) r.
Proof. intros r Hr. eapply find_located; [apply article_located|exact Hr]. Qed.

Lemma subheadings_located : forall r, r ∈ subheadings page -> located (tree page) r.
Proof. intros r Hr. eapply find_located; [apply article_located|exact Hr]. Qed.

Lemma reach_below cut context c r d :
  c ∈ context -> reach cut c r -> d ∈ children cut r -> below cut context d.
Proof.
  intros Hc Hr. revert d. induction Hr as [r|r k r' Hk Hr IH]; intros d Hd.
  - exists r, d. split; [exact Hc|]. split; [exact Hd|apply reach_refl].
  - exists r, k. split; [exact Hc|]. split; [exact Hk|].
    eapply reach_snoc; eauto.
Qed.

Lemma sel_article_doc_isTag n : sel_article_doc n = true -> isTag n = true.
Proof.
  unfold sel_article_doc. intros [H _]%andb_true_iff.
  destruct n; [discriminate|discriminate|reflexivity].
Qed.

(** The article region: the [article] elements of class [doc] of the
    page. *)
Lemma elem_of_article a :
  a ∈ article page <->
  sel_article_doc a.2 = true /\ below [] [root (Page.contents page)] a.
Proof.
  split.
  - intros (Ht & _ & H)%find_sound. auto.
  - intros (Ht & c & k & Hc & Hk & Hr).
    eapply (find_complete (tree page)); eauto using root_located.
    apply sel_article_doc_isTag, Ht.
Qed.

Lemma elem_of_h1 r :
  r ∈ h1 page <-> sel_h1 r.2 = true /\ below [] (article page) r.
Proof.
  split.
  - intros (Ht & _ & H)%find_sound. auto.
  - intros (Ht & c & k & Hc & Hk & Hr).
    eapply (find_complete (tree page)); eauto using article_located.
    unfold sel_h1 in Ht. apply andb_true_iff in Ht as [Ht _]. exact Ht.
Qed.

Lemma elem_of_subheadings r :
  r ∈ subheadings page <->
  sel_h2_h6 r.2 = true /\ below (h1_removed page) (article page) r.
Proof.
  split.
  - intros (Ht & _ & H)%find_sound. auto.
  - intros (Ht & c & k & Hc & Hk & Hr).
    eapply (find_complete (tree page)); eauto using article_located.
    unfold sel_h2_h6 in Ht. apply andb_true_iff in Ht as [Ht _]. exact Ht.
Qed.

Lemma below_mono cut cut' context r :
  cut ⊆ cut' -> below cut' context r -> below cut context r.
Proof.
  intros Hs (c & k & Hc & Hk & Hr). exists c, k. split; [exact Hc|].
  split; [eapply children_mono; eauto|eapply reach_mono; eauto].
Qed.

Lemma below_attached cut context r : below cut context r -> r.1 ∉ cut.
Proof. intros (c & k & _ & Hk & Hr). eapply reach_child_attached; eauto. Qed.

Lemma empty_list {A} (l : list A) : (forall x, x ∉ l) -> l = [].
Proof.
  destruct l as [|x l]; [reflexivity|]. intros H. exfalso.
  apply (H x). apply elem_of_cons. left. reflexivity.
Qed.

(** No h1 and no sub-heading is left below the article region. *)
Lemma no_h1_left : find (final_tree skips_text page) sel_h1 (article page) = [].
Proof.
  apply empty_list. intros r (Ht & _ & Hb)%find_sound. fold (below (final_tree skips_text page) (article page) r) in Hb.
  apply (below_attached _ _ _ Hb). rewrite final_tree_eq. apply elem_of_app. left.
  apply list_elem_of_fmap. exists r. split; [reflexivity|].
  apply elem_of_h1. split; [exact Ht|].
  eapply below_mono; [|exact Hb]. intros q H. inversion H.
Qed.


(** A position holds one node. *)
Lemma located_inj (r r' : ref) :
  located (tree page) r -> located (tree page) r' -> r.1 = r'.1 -> r.2 = r'.2.
Proof. unfold located. intros H H' E. rewrite E in H. congruence. Qed.

Lemma h1_removed_is_h1 q c :
  located (tree page) (q, c) -> q ∈ h1_removed page -> sel_h1 c = true.
Proof.
  intros Hl (r & E & Hr)%list_elem_of_fmap.
  pose proof (located_inj (q, c) r Hl (h1_located _ Hr) E) as E2.
  simpl in E2. subst c. apply elem_of_h1 in Hr as [Ht _]. exact Ht.
Qed.

Lemma final_tree_is_heading q c :
  located (tree page) (q, c) -> q ∈ final_tree skips_text page ->
  is_heading c = true.
Proof.
  intros Hl. rewrite final_tree_eq. unfold is_heading.
  intros [H|(r & E & Hr)%list_elem_of_fmap]%elem_of_app.
  - rewrite (h1_removed_is_h1 q c Hl H). reflexivity.
  - pose proof (located_inj (q, c) r Hl (subheadings_located _ Hr) E) as E2.
    simpl in E2. subst c.
    apply elem_of_subheadings in Hr as [Ht _]. rewrite Ht. apply orb_true_r.
Qed.

Lemma within_child cut r i c :
  within page cut r -> child r.2 i = Some c -> i :: r.1 ∉ cut ->
  (i :: r.1, c) ∈ children cut r /\ within page cut (i :: r.1, c).
Proof.
  intros (Hl & a & Ha & Hr) Hc Hq.
  assert (Hk : (i :: r.1, c) ∈ children cut r).
  { apply elem_of_children. exists i. auto. }
  split; [exact Hk|]. split; [eapply children_located; eauto|].
  exists a. split; [exact Ha|]. eapply reach_snoc; eauto.
Qed.

(** The text of an article node after the loop is its text outside the
    headings. *)
Lemma text_final n p :
  within page (h1_removed page) (p, n) ->
  text skips_text (final_tree skips_text page) p n
  = text_outside skips_text is_heading n.
Proof.
  apply (text_text_outside skips_text (final_tree skips_text page) is_heading
           (within page (h1_removed page))).
  clear n p. intros r i c Hr Hc.
  assert (Hl : located (tree page) (i :: r.1, c)).
  { unfold located. simpl. destruct Hr as [Hr _]. rewrite Hr. exact Hc. }
  split; [split|].
  - apply final_tree_is_heading, Hl.
  - intros Hh. destruct (decide (i :: r.1 ∈ h1_removed page)) as [H|H];
      [apply h1_removed_final, H|].
    destruct (within_child _ _ _ _ Hr Hc H) as [Hk _].
    destruct Hr as (_ & a & Ha & Hr).
    pose proof (reach_below _ _ _ _ _ Ha Hr Hk) as Hb.
    rewrite final_tree_eq. apply elem_of_app.
    unfold is_heading in Hh. destruct (sel_h1 c) eqn:H1.
    + left. apply list_elem_of_fmap. exists (i :: r.1, c). split; [reflexivity|].
      apply elem_of_h1. split; [exact H1|].
      eapply below_mono; [|exact Hb]. intros q Hq. inversion Hq.
    + right. apply list_elem_of_fmap. exists (i :: r.1, c). split; [reflexivity|].
      apply elem_of_subheadings. split; [exact Hh|exact Hb].
  - intros Hs. apply within_child; [exact Hr|exact Hc|].
    intros H. apply h1_removed_final in H.
    rewrite (final_tree_is_heading _ _ Hl H) in Hs. discriminate.
Qed.

(** Line 57: what [article.text()] reads. *)
Lemma article_text_outside :
  article_text skips_text page =
  concat (List.map (fun a => text_outside skips_text is_heading a.2) (article page)).
Proof.
  unfold article_text, text_of. fold (final_tree skips_text page). f_equal.
  apply map_ext_in. intros [p n] Ha%list_elem_of_In.
  apply text_final. split; [apply article_located, Ha|].
  exists (p, n). split; [exact Ha|apply reach_refl].
Qed.

(** Line 40: what [$h1.text()] reads. *)
Lemma title_whole :
  text_of skips_text [] (h1 page) =
  concat (List.map (fun h => text_outside skips_text (fun _ => false) h.2) (h1 page)).
Proof.
  unfold text_of. f_equal. apply map_ext_in. intros h _. apply text_whole.
Qed.

End Extraction.

(** ** The order of a selection: parents before children *)

Lemma SS_filter {A} (R : relation A) (f : A -> bool) (l : list A) :
  StronglySorted R l -> StronglySorted R (List.filter f l).
Proof.
  induction 1 as [|x l Hl IH Hx]; simpl; [constructor|].
  destruct (f x); [|exact IH]. constructor; [exact IH|].
  rewrite Forall_forall in *. intros y Hy%list_elem_of_In%filter_In.
  apply Hx, list_elem_of_In, Hy.
Qed.

Lemma SS_flat_map {A B} (R : relation B) (f : A -> list B) (K : list A) :
  StronglySorted (fun k1 k2 => forall x y, x ∈ f k1 -> y ∈ f k2 -> R x y) K ->
  (forall k, k ∈ K -> StronglySorted R (f k)) ->
  StronglySorted R (flat_map f K).
Proof.
  induction 1 as [|k K HK IH Hk]; intros Hf; simpl; [constructor|].
  apply StronglySorted_app_2.
  - intros x y Hx Hy. apply list_elem_of_In, in_flat_map in Hy as (k' & Hk' & Hy).
    rewrite Forall_forall in Hk.
    apply (Hk k'); [apply list_elem_of_In, Hk'|exact Hx|apply list_elem_of_In, Hy].
  - apply Hf. apply elem_of_cons. auto.
  - apply IH. intros k' Hk'. apply Hf. apply elem_of_cons. auto.
Qed.

Lemma SS_impl {A} (R R' : relation A) (l : list A) :
  StronglySorted R l ->
  (forall x y, x ∈ l -> y ∈ l -> R x y -> R' x y) ->
  StronglySorted R' l.
Proof.
  induction 1 as [|x l Hl IH Hx]; intros H; constructor.
  - apply IH. intros y z Hy Hz. apply H; apply elem_of_cons; auto.
  - rewrite Forall_forall in *. intros y Hy. apply H.
    + apply elem_of_cons; auto.
    + apply elem_of_cons; auto.
    + apply Hx, Hy.
Qed.

Lemma SS_and {A} (R R' : relation A) (l : list A) :
  StronglySorted R l -> StronglySorted R' l ->
  StronglySorted (fun x y => R x y /\ R' x y) l.
Proof.
  induction 1 as [|x l Hl IH Hx]; intros H'; [constructor|].
  apply StronglySorted_cons in H' as [Hx' H']. constructor; [apply IH, H'|].
  rewrite Forall_forall in *. intros y Hy. split; [apply Hx, Hy|apply Hx', Hy].
Qed.

Lemma reach_suffix cut k x : reach cut k x -> k.1 `suffix_of` x.1.
Proof.
  induction 1 as [|r c r' Hc _ IH]; [reflexivity|].
  apply elem_of_children in Hc as (i & Hc & _). rewrite Hc in IH.
  eapply suffix_cons_l, IH.
Qed.

Lemma ancestors_suffix cut (q a : path) : a ∈ ancestors cut q -> a `suffix_of` q.
Proof.
  induction q as [|i q IH]; simpl.
  - intros ->%list_elem_of_singleton. reflexivity.
  - intros [->|H]%elem_of_cons; [reflexivity|].
    destruct (removed cut (i :: q)); [inversion H|].
    apply suffix_cons_r, IH, H.
Qed.

Lemma ancestors_parent cut (i : nat) (p : path) :
  i :: p ∉ cut -> p ∈ ancestors cut (i :: p).
Proof.
  intros H. simpl. apply removed_false in H. rewrite H.
  apply elem_of_cons. right. apply ancestors_self.
Qed.

(** Every position between a node and one it reaches has the node on its
    parent chain. *)
Lemma reach_ancestors cut k x :
  reach cut k x ->
  forall q, k.1 `suffix_of` q -> q `suffix_of` x.1 -> k.1 ∈ ancestors cut q.
Proof.
  induction 1 as [r|r c r' Hc Hr IH]; intros q Hk Hq.
  - replace q with r.1; [apply ancestors_self|].
    apply (anti_symm suffix); assumption.
  - destruct (decide (q = r.1)) as [->|Hne]; [apply ancestors_self|].
    apply elem_of_children in Hc as (i & Hc & _ & Hcut).
    assert (Hcq : c.1 `suffix_of` q).
    { pose proof (reach_suffix _ _ _ Hr) as Hcr.
      destruct (suffix_weak_total _ _ _ Hcr Hq) as [H|H]; [exact H|].
      destruct Hk as [d Hd]. destruct d as [|j d]; [simpl in Hd; congruence|].
      replace q with c.1; [reflexivity|]. symmetry.
      apply suffix_length_eq; [exact H|].
      rewrite Hc, Hd. simpl. rewrite length_app. lia. }
    eapply ancestors_trans; [apply IH; assumption|].
    rewrite Hc. apply ancestors_parent. rewrite <- Hc. exact Hcut.
Qed.

(** The subtrees of two nodes that are apart hold no node strictly below
    a node of the other. *)
Lemma apart_walks cut k1 k2 x e :
  apart cut k1 k2 -> reach cut k1 x -> reach cut k2 e ->
  ~ strictly_below x.1 e.1.
Proof.
  intros [H1 H2] Hx He [Hs _].
  pose proof (reach_suffix _ _ _ Hx) as Hkx.
  pose proof (reach_suffix _ _ _ He) as Hke.
  assert (Hk2x : k2.1 `suffix_of` x.1) by (etrans; eassumption).
  destruct (suffix_weak_total _ _ _ Hkx Hk2x) as [H|H]; [|exact (H1 H)].
  apply H2. eapply reach_ancestors; eassumption.
Qed.

Lemma siblings_apart cut c1 c2 : siblings c1 c2 -> apart cut c1 c2.
Proof.
  intros [Hl Hne]. split.
  - intros H. apply Hne. symmetry. apply suffix_length_eq; [exact H|lia].
  - intros H%ancestors_suffix. apply Hne. apply suffix_length_eq; [exact H|lia].
Qed.

Lemma siblings_before c1 c2 : siblings c1 c2 -> ~ strictly_below c1.1 c2.1.
Proof.
  intros [Hl Hne] [H _]. apply Hne. symmetry.
  apply suffix_length_eq; [exact H|lia].
Qed.

Lemma children_from_siblings cut p cs : forall i,
  StronglySorted siblings (children_from cut p i cs).
Proof.
  induction cs as [|c cs IH]; intros i; simpl; [constructor|].
  apply StronglySorted_app_2; [| |apply IH].
  - intros x [q d] Hx (j & -> & _)%elem_of_children_from.
    destruct (removed cut (i :: p)); [inversion Hx|].
    apply list_elem_of_singleton in Hx as ->. split; [reflexivity|].
    simpl. intros [= E]. lia.
  - destruct (removed cut (i :: p)); repeat constructor.
Qed.

Lemma children_siblings cut r : StronglySorted siblings (children cut r).
Proof.
  unfold children. destruct (r.2); try constructor. apply children_from_siblings.
Qed.

Lemma walk_parents_first cut (n : node) : forall p, parents_first (walk cut p n).
Proof.
  unfold parents_first.
  induction n as [d|d|nm a cs IH] using node_ind'; intros p;
    [constructor|constructor|].
  rewrite walk_eq. constructor.
  - apply SS_flat_map.
    + eapply SS_impl; [apply children_siblings|].
      intros c1 c2 _ _ Hs x y [_ Hx]%elem_of_walk [_ Hy]%elem_of_walk.
      eapply (apart_walks cut c1 c2); [apply siblings_apart, Hs| |].
      * destruct c1; exact Hx.
      * destruct c2; exact Hy.
    + intros k Hk. rewrite Forall_forall in IH. apply IH.
      apply elem_of_children in Hk as (i & _ & Hk & _). eapply child_In; eauto.
  - apply Forall_forall. intros y Hy [Hs _].
    apply list_elem_of_In, in_flat_map in Hy as (c & Hc & Hy).
    apply list_elem_of_In in Hc, Hy. apply elem_of_walk in Hy as [_ Hy].
    apply elem_of_children in Hc as (i & Hc & _). simpl in Hc.
    assert (Hr : reach cut c y) by (destruct c; exact Hy).
    apply reach_suffix in Hr. rewrite Hc in Hr.
    apply (suffix_cons_not i p). etrans; eassumption.
Qed.

(** [removeSubsets] keeps the order of the entries. *)
Lemma removeSubsets_loop_sorted (R : relation ref) cut todo : forall kept,
  StronglySorted R (rev todo ++ kept) ->
  StronglySorted R (removeSubsets_loop cut todo kept).
Proof.
  induction todo as [|x before IH]; intros kept; simpl; [trivial|].
  rewrite <- app_assoc. simpl. intros H. destruct (existsb _ _).
  - apply IH. apply StronglySorted_app in H as (H1 & H2 & H3).
    apply StronglySorted_cons in H3 as [_ H3].
    apply StronglySorted_app_2; [|exact H2|exact H3].
    intros y z Hy Hz. apply H1; [exact Hy|apply elem_of_cons; auto].
  - apply IH, H.
Qed.

Lemma removeSubsets_sorted (R : relation ref) cut nodes :
  StronglySorted R nodes -> StronglySorted R (removeSubsets cut nodes).
Proof.
  intros H. apply removeSubsets_loop_sorted.
  rewrite rev_involutive, app_nil_r. exact H.
Qed.

Lemma existsb_false {A} (f : A -> bool) (l : list A) (a : A) :
  existsb f l = false -> a ∈ l -> f a = false.
Proof.
  intros H Ha. destruct (f a) eqn:E; [|reflexivity].
  rewrite <- H. symmetry. apply existsb_exists. exists a.
  split; [apply list_elem_of_In, Ha|exact E].
Qed.

Lemma removeSubsets_loop_unrelated cut todo : forall kept,
  StronglySorted (unrelated cut) kept ->
  (forall y b, y ∈ kept -> b ∈ todo -> b.1 ∉ ancestors cut y.1) ->
  StronglySorted (unrelated cut) (removeSubsets_loop cut todo kept).
Proof.
  induction todo as [|x before IH]; intros kept Hk Hb; simpl; [trivial|].
  destruct (existsb _ _) eqn:He.
  - apply IH; [exact Hk|]. intros y b Hy Hin. apply Hb; [exact Hy|].
    apply elem_of_cons. auto.
  - assert (Hx : forall z, z ∈ before ++ kept -> z.1 ∉ ancestors cut x.1).
    { intros z Hz Ha. pose proof (existsb_false _ _ _ He Ha) as Hf.
      apply bool_decide_eq_false in Hf. apply Hf.
      rewrite <- fmap_app. apply list_elem_of_fmap. exists z. auto. }
    apply IH.
    + constructor; [exact Hk|]. apply Forall_forall. intros y Hy. split.
      * apply Hx. apply elem_of_app. auto.
      * apply Hb; [exact Hy|]. apply elem_of_cons. auto.
    + intros y b [->|Hy]%elem_of_cons Hin.
      * apply Hx. apply elem_of_app. auto.
      * apply Hb; [exact Hy|]. apply elem_of_cons. auto.
Qed.

Lemma removeSubsets_unrelated cut nodes :
  StronglySorted (unrelated cut) (removeSubsets cut nodes).
Proof.
  apply removeSubsets_loop_unrelated; [constructor|].
  intros y b Hy. inversion Hy.
Qed.

Lemma starts_parents_first cut context :
  parents_first context -> parents_first (starts cut context).
Proof.
  unfold parents_first, starts. intros H. apply SS_flat_map.
  - eapply SS_impl; [exact H|]. intros c1 c2 _ _ Hc x y Hx Hy [Hs Hne].
    apply list_elem_of_In, filter_In in Hx as [Hx%list_elem_of_In _].
    apply list_elem_of_In, filter_In in Hy as [Hy%list_elem_of_In _].
    apply elem_of_children in Hx as (i1 & Hx & _).
    apply elem_of_children in Hy as (i2 & Hy & _).
    rewrite Hx, Hy in Hs, Hne.
    apply suffix_cons_inv in Hs as [Hs|Hs]; [congruence|].
    apply Hc. split; [eapply suffix_cons_l, Hs|].
    intros E. rewrite E in Hs. exact (suffix_cons_not _ _ Hs).
  - intros c _. apply SS_filter.
    eapply SS_impl; [apply children_siblings|].
    intros x y _ _. apply siblings_before.
Qed.

(** [find] lists a node before the nodes below it. *)
Lemma find_parents_first cut test context :
  parents_first context -> parents_first (find cut test context).
Proof.
  intros H. unfold find, findAll.
  apply SS_filter, SS_flat_map; [|intros k _; apply walk_parents_first].
  pose proof (removeSubsets_sorted _ cut _ (starts_parents_first cut _ H)) as H1.
  pose proof (removeSubsets_unrelated cut (starts cut context)) as H2.
  eapply SS_impl; [exact (SS_and _ _ _ H1 H2)|].
  intros k1 k2 _ _ [Hb [Hu1 Hu2]] x y [_ Hx]%elem_of_walk [_ Hy]%elem_of_walk.
  apply (apart_walks cut k1 k2).
  - split; [|exact Hu2]. intros Hs.
    destruct (decide (k2.1 = k1.1)) as [E|Hne].
    + apply Hu1. rewrite E. apply ancestors_self.
    + apply Hb. split; assumption.
  - destruct k1; exact Hx.
  - destruct k2; exact Hy.
Qed.

(** ** The text a turn of the loop reads *)

Lemma children_from_agree cut cut' p cs : forall i,
  (forall j, removed cut ((i + j)%nat :: p) = removed cut' ((i + j)%nat :: p)) ->
  children_from cut p i cs = children_from cut' p i cs.
Proof.
  induction cs as [|c cs IH]; intros i H; [reflexivity|]. simpl.
  specialize (H 0%nat) as H0. rewrite Nat.add_0_r in H0. rewrite H0. f_equal.
  apply IH. intros j. rewrite Nat.add_succ_l, <- Nat.add_succ_r. apply H.
Qed.

Lemma removed_agree cut cut' q :
  (q ∈ cut <-> q ∈ cut') -> removed cut q = removed cut' q.
Proof.
  intros H. destruct (removed cut' q) eqn:E.
  - apply removed_true, H, removed_true, E.
  - apply removed_false. intros Hq. apply removed_false in E. apply E, H, Hq.
Qed.

(** [text] of a node looks only at what was detached below it. *)
Lemma text_agree skips cut cut' (n : node) : forall p,
  (forall q, strictly_below q p -> (q ∈ cut <-> q ∈ cut')) ->
  text skips cut p n = text skips cut' p n.
Proof.
  induction n as [d|d|nm a cs IH] using node_ind'; intros p H;
    [reflexivity|reflexivity|].
  rewrite !text_eq. destruct (skips nm); [reflexivity|]. f_equal.
  assert (E : children cut (p, Element nm a cs) = children cut' (p, Element nm a cs)).
  { unfold children. simpl. apply children_from_agree. intros j.
    apply removed_agree, H. split; [apply suffix_cons_r; reflexivity|].
    intros E. apply (f_equal length) in E. simpl in E. lia. }
  rewrite <- E. apply map_ext_in. intros c Hc%list_elem_of_In.
  apply elem_of_children in Hc as (i & Hp & Hc & _). simpl in Hp, Hc.
  rewrite Forall_forall in IH. apply IH; [eapply list_elem_of_lookup_2, Hc|].
  intros q [Hs Hne]. apply H. rewrite Hp in Hs. split; [eapply suffix_cons_l, Hs|].
  intros ->. exact (suffix_cons_not _ _ Hs).
Qed.

Lemma omap_cons {A B} (f : A -> option B) (x : A) (l : list A) :
  omap f (x :: l) = match f x with Some y => y :: omap f l | None => omap f l end.
Proof. reflexivity. Qed.

Section Titles.

Variable skips_text : jsstring -> bool.

Lemma each_title_eq cut titles r :
  each_title skips_text (cut, titles) r =
  (cut ++ [r.1],
   titles ++ from_option (fun t => [t]) [] (heading_ref skips_text cut r)).
Proof.
  unfold each_title, heading_ref, remove. simpl.
  destruct (attr r.2 (js "id")) as [[|c v]|]; simpl; rewrite ?app_nil_r; reflexivity.
Qed.

Lemma heading_ref_agree cut x (e : ref) :
  ~ strictly_below x e.1 ->
  heading_ref skips_text (cut ++ [x]) e = heading_ref skips_text cut e.
Proof.
  intros H. unfold heading_ref.
  rewrite (text_agree skips_text (cut ++ [x]) cut); [reflexivity|].
  intros q Hq. rewrite elem_of_app, list_elem_of_singleton. split; [|auto].
  intros [Hc| ->]; [exact Hc|contradiction].
Qed.

(** The loop over a selection that lists parents first: every heading is
    read as it was when the selection was made. *)
Lemma fold_each_title_titles (l : list ref) : forall cut titles,
  parents_first l ->
  (fold_left (each_title skips_text) l (cut, titles)).2
  = titles ++ omap (heading_ref skips_text cut) l.
Proof.
  induction l as [|r l IH]; intros cut titles H; cbn [fold_left].
  - simpl. rewrite app_nil_r. reflexivity.
  - apply StronglySorted_cons in H as [Hr H]. rewrite each_title_eq, IH by exact H.
    assert (E : omap (heading_ref skips_text (cut ++ [r.1])) l
                = omap (heading_ref skips_text cut) l).
    { clear IH H. induction l as [|e l IHl]; [reflexivity|].
      apply Forall_cons in Hr as [He Hr]. rewrite !omap_cons.
      rewrite (heading_ref_agree cut r.1 e He), (IHl Hr). reflexivity. }
    rewrite E, <- app_assoc, omap_cons.
    destruct (heading_ref skips_text cut r); reflexivity.
Qed.

End Titles.

(** ** Document order *)

Lemma children_from_earlier cut p cs : forall i,
  StronglySorted (earlier_child p) (children_from cut p i cs).
Proof.
  induction cs as [|c cs IH]; intros i; simpl; [constructor|].
  apply StronglySorted_app_2; [| |apply IH].
  - intros x [q d] Hx (j & -> & _)%elem_of_children_from.
    destruct (removed cut (i :: p)); [inversion Hx|].
    apply list_elem_of_singleton in Hx as ->.
    exists i, (S i + j)%nat. simpl. split; [reflexivity|]. split; [reflexivity|lia].
  - destruct (removed cut (i :: p)); repeat constructor.
Qed.

Lemma children_earlier cut r : StronglySorted (earlier_child r.1) (children cut r).
Proof.
  unfold children. destruct (r.2); try constructor. apply children_from_earlier.
Qed.

Lemma earlier_child_walks cut p c1 c2 x y :
  earlier_child p c1 c2 -> reach cut c1 x -> reach cut c2 y ->
  doc_before x.1 y.1.
Proof.
  intros (i & j & E1 & E2 & Hlt) [dx Hx]%reach_suffix [dy Hy]%reach_suffix.
  right. exists p, i, j, dx, dy. rewrite Hx, Hy, E1, E2. auto.
Qed.

Lemma walks_document_order cut p (K : list ref) :
  StronglySorted (earlier_child p) K ->
  (forall k, k ∈ K -> document_order (walk cut k.1 k.2)) ->
  document_order (flat_map (fun k => walk cut k.1 k.2) K).
Proof.
  intros HK Hw. apply SS_flat_map; [|exact Hw].
  eapply SS_impl; [exact HK|].
  intros c1 c2 _ _ Hc x y [_ Hx]%elem_of_walk [_ Hy]%elem_of_walk.
  eapply (earlier_child_walks cut p c1 c2); [exact Hc| |].
  - destruct c1; exact Hx.
  - destruct c2; exact Hy.
Qed.

Lemma walk_document_order cut (n : node) : forall p, document_order (walk cut p n).
Proof.
  unfold document_order.
  induction n as [d|d|nm a cs IH] using node_ind'; intros p;
    [constructor|constructor|].
  rewrite walk_eq. constructor.
  - apply (walks_document_order cut p); [apply (children_earlier cut (p, _))|].
    intros k Hk. rewrite Forall_forall in IH. apply IH.
    apply elem_of_children in Hk as (i & _ & Hk & _). eapply child_In; eauto.
  - apply Forall_forall. intros y Hy. left.
    apply list_elem_of_In, in_flat_map in Hy as (c & Hc & Hy).
    apply list_elem_of_In in Hc, Hy. apply elem_of_walk in Hy as [_ Hy].
    apply elem_of_children in Hc as (i & Hc & _). simpl in Hc.
    assert (Hr : reach cut c y) by (destruct c; exact Hy).
    apply reach_suffix in Hr. rewrite Hc in Hr. split.
    + eapply suffix_cons_l, Hr.
    + simpl. intros E. rewrite <- E in Hr. exact (suffix_cons_not _ _ Hr).
Qed.

(** A search from one context node lists its finds in document order. *)
Lemma find_document_order cut test (c : ref) :
  document_order (find cut test [c]).
Proof.
  unfold find, findAll, starts. simpl. rewrite app_nil_r.
  apply SS_filter, (walks_document_order cut c.1).
  - apply removeSubsets_sorted, SS_filter, children_earlier.
  - intros k _. apply walk_document_order.
Qed.

Section ExtractionTitles.

Variable skips_text : jsstring -> bool.
Variable page : Page.t.

Lemma article_parents_first : parents_first (article page).
Proof. apply find_parents_first. repeat constructor. Qed.

Lemma subheadings_parents_first : parents_first (subheadings page).
Proof. apply find_parents_first, article_parents_first. Qed.

Lemma article_document_order : document_order (article page).
Proof. apply find_document_order. Qed.

(** With one article region the headings are selected in document
    order. *)
Lemma h1_document_order a : article page = [a] -> document_order (h1 page).
Proof. intros E. unfold h1. rewrite E. apply find_document_order. Qed.


Lemma text_h1_removed n p :
  within page [] (p, n) ->
  text skips_text (h1_removed page) p n = text_outside skips_text sel_h1 n.
Proof.
  apply (text_text_outside skips_text (h1_removed page) sel_h1 (within page [])).
  clear n p. intros r i c Hr Hc.
  assert (Hn : i :: r.1 ∉ []) by (intros H; inversion H).
  destruct (within_child page _ _ _ _ Hr Hc Hn) as [Hk Hw].
  split; [split|].
  - apply h1_removed_is_h1. destruct Hw as [Hl _]. exact Hl.
  - intros Hs. rewrite h1_removed_eq. apply list_elem_of_fmap.
    exists (i :: r.1, c). split; [reflexivity|].
    apply elem_of_h1. split; [exact Hs|].
    destruct Hr as (_ & a & Ha & Hr). eapply reach_below; eauto.
  - intros _. exact Hw.
Qed.

Lemma omap_ext_in {A B} (f g : A -> option B) (l : list A) :
  (forall x, x ∈ l -> f x = g x) -> omap f l = omap g l.
Proof.
  induction l as [|x l IH]; intros H; [reflexivity|].
  rewrite !omap_cons, (H x), IH; [reflexivity| |apply elem_of_cons; auto].
  intros y Hy. apply H. apply elem_of_cons. auto.
Qed.

Lemma titles_eq :
  (each_subheading skips_text page).2
  = omap (heading_of skips_text) (subheadings page).
Proof.
  unfold each_subheading.
  rewrite fold_each_title_titles by apply subheadings_parents_first. simpl.
  apply omap_ext_in. intros [p n] Hr. unfold heading_ref, heading_of. simpl.
  rewrite text_h1_removed; [reflexivity|].
  split; [apply (subheadings_located page), Hr|].
  apply elem_of_subheadings in Hr as [_ Hb].
  apply (below_mono [] (h1_removed page)) in Hb; [|intros q Hq; inversion Hq].
  destruct Hb as (a & k & Ha & Hk & Hr). exists a. split; [exact Ha|].
  eapply reach_child; eauto.
Qed.

End ExtractionTitles.

(** ** Removing tags *)

Lemma take_drop_while (f : Z -> bool) (s : jsstring) :
  take_while f s ++ drop_while f s = s.
Proof.
  induction s as [|c r IH]; [reflexivity|]. simpl.
  destruct (f c); [simpl; rewrite IH|]; reflexivity.
Qed.

Lemma take_while_app_stop (f : Z -> bool) (body : jsstring) (c : Z) (post : jsstring) :
  Forall (fun x => f x = true) body -> f c = false ->
  take_while f (body ++ c :: post) = body /\
  drop_while f (body ++ c :: post) = c :: post.
Proof.
  intros Hb Hc. induction Hb as [|x body Hx _ [IH1 IH2]]; simpl.
  - rewrite Hc. auto.
  - rewrite Hx, IH1, IH2. auto.
Qed.

(** A tag in the sense of the pattern is removed whole. *)
Lemma re_tag_match (body post : jsstring) :
  body <> [] -> 62 ∉ body ->
  re_tag (60 :: body ++ 62 :: post) = Some (S (S (length body))).
Proof.
  intros Hne Hb. unfold re_tag. simpl.
  destruct (take_while_app_stop (fun x => negb (x =? 62)) body 62 post) as [E1 E2].
  - apply Forall_forall. intros x Hx. apply negb_true_iff, Z.eqb_neq.
    intros ->. exact (Hb Hx).
  - reflexivity.
  - rewrite E1, E2. destruct body; [contradiction|reflexivity].
Qed.

Lemma strip_tags_tag (body post : jsstring) :
  body <> [] -> 62 ∉ body ->
  strip_tags (60 :: body ++ 62 :: post) = strip_tags post.
Proof.
  intros Hne Hb. unfold strip_tags, replace. cbn [replace_from].
  rewrite (re_tag_match body post Hne Hb). simpl.
  rewrite replace_from_skip. f_equal.
  change (62 :: post) with ([62] ++ post). rewrite app_assoc.
  rewrite drop_app_length'; [reflexivity|].
  rewrite length_app. simpl. lia.
Qed.

(** Text without [<] is left as it is. *)
Lemma strip_tags_app (pre s : jsstring) :
  60 ∉ pre -> strip_tags (pre ++ s) = pre ++ strip_tags s.
Proof.
  unfold strip_tags, replace. induction pre as [|c pre IH]; intros H; [reflexivity|].
  simpl. destruct (Z.eqb_spec c 60) as [->|Hc].
  - exfalso. apply H. apply elem_of_cons. auto.
  - rewrite IH; [reflexivity|]. intros Hin. apply H. apply elem_of_cons. auto.
Qed.

(** ** The builder and the store *)

Lemma fold_add_titles (doc : Doc.t) (titles : list HeadingRef.t) : forall b,
  fold_left
    (fun b title =>
       Builder.add
         (HeadingRecord (HeadingRef.text title)
            (Doc.url doc ++ js "#" ++ HeadingRef.id title)) b)
    titles b
  = Builder.mk (Builder._ref b) (Builder._fields b) (Builder.metadataWhitelist b)
      (Builder.documents b ++
       List.map
         (fun title =>
            HeadingRecord (HeadingRef.text title)
              (Doc.url doc ++ js "#" ++ HeadingRef.id title)) titles).
Proof.
  induction titles as [|t titles IH]; intros b; simpl.
  - rewrite app_nil_r. destruct b; reflexivity.
  - rewrite IH. unfold Builder.add. simpl. rewrite <- app_assoc. reflexivity.
Qed.

Lemma add_doc_eq (b : Builder.t) (doc : Doc.t) :
  add_doc b doc =
  Builder.mk (Builder._ref b) (Builder._fields b) (Builder.metadataWhitelist b)
    (Builder.documents b ++ records_of doc).
Proof.
  unfold add_doc. rewrite fold_add_titles. unfold Builder.add, records_of. simpl.
  rewrite <- app_assoc. reflexivity.
Qed.

Lemma fold_add_doc (docs : list Doc.t) : forall b,
  fold_left add_doc docs b =
  Builder.mk (Builder._ref b) (Builder._fields b) (Builder.metadataWhitelist b)
    (Builder.documents b ++ flat_map records_of docs).
Proof.
  induction docs as [|d docs IH]; intros b; simpl.
  - rewrite app_nil_r. destruct b; reflexivity.
  - rewrite IH, add_doc_eq. simpl. rewrite <- app_assoc. reflexivity.
Qed.

Lemma configure_eq (docs : list Doc.t) :
  lunr (configure docs) =
  Builder.mk (js "url")
    [(js "title", 10); (js "name", 1); (js "text", 1); (js "component", 1)]
    [js "position"] (flat_map records_of docs).
Proof. unfold lunr, configure. rewrite fold_add_doc. reflexivity. Qed.





Lemma generateIndex_eq skips decode playbook (pages : list Page.t) :
  pages <> [] ->
  generateIndex skips decode playbook pages =
  IndexAndStore
    (lunr (configure (documents skips decode (site_url playbook) pages)))
    (store_of (documents skips decode (site_url playbook) pages)).
Proof. destruct pages; [contradiction|reflexivity]. Qed.

(** ** The 16-bit buffer *)

Lemma str2buffer_loop_eq (str : jsstring) : forall (n i : nat),
  (i + n = length str)%nat ->
  str2buffer_loop str n i
    (List.map (fun c => c mod 65536) (take i str) ++ replicate n 0)
  = List.map (fun c => c mod 65536) str.
Proof.
  induction n as [|n IH]; intros i H; simpl.
  - rewrite app_nil_r, take_ge by lia. reflexivity.
  - destruct (lookup_lt_is_Some_2 str i) as [c Hc]; [lia|].
    rewrite <- (IH (S i)) by lia. f_equal.
    rewrite insert_app_r_alt by (rewrite length_map, length_take; lia).
    rewrite length_map, length_take.
    replace (i - i `min` length str)%nat with 0%nat by lia. simpl.
    rewrite (take_S_r _ _ _ Hc), List.map_app, <- app_assoc. simpl.
    unfold charCodeAt. rewrite Hc. reflexivity.
Qed.

Lemma str2buffer_eq le (str : jsstring) :
  str2buffer le str = bytes_of le (List.map (fun c => c mod 65536) str).
Proof.
  unfold str2buffer. f_equal.
  apply (str2buffer_loop_eq str (length str) 0). reflexivity.
Qed.

Lemma wf_string_mod (str : jsstring) :
  wf_string str -> List.map (fun c => c mod 65536) str = str.
Proof.
  induction 1 as [|c str Hc _ IH]; [reflexivity|]. simpl.
  rewrite IH, Z.mod_small by exact Hc. reflexivity.
Qed.

Lemma bytes_of_cons le (w : Z) (a16 : list Z) :
  bytes_of le (w :: a16) =
  (if le then w mod 256 else w / 256) :: (if le then w / 256 else w mod 256)
    :: bytes_of le a16.
Proof. destruct le; reflexivity. Qed.

Lemma buffer2str_bytes_of le (a16 : list Z) :
  buffer2str le (bytes_of le a16) = a16.
Proof.
  induction a16 as [|w a16 IH]; [reflexivity|].
  rewrite bytes_of_cons. cbn [buffer2str]. rewrite IH. f_equal.
  destruct le; rewrite Z.add_comm; symmetry; apply Z.div_mod; lia.
Qed.

Lemma length_bytes_of le (a16 : list Z) :
  length (bytes_of le a16) = (2 * length a16)%nat.
Proof.
  induction a16 as [|w a16 IH]; [reflexivity|].
  rewrite bytes_of_cons. cbn [length]. lia.
Qed.

Lemma bytes_of_lookup le (a16 : list Z) : forall (i : nat) (w : Z),
  a16 !! i = Some w ->
  bytes_of le a16 !! (2 * i)%nat = Some (if le then w mod 256 else w / 256) /\
  bytes_of le a16 !! (2 * i + 1)%nat = Some (if le then w / 256 else w mod 256).
Proof.
  induction a16 as [|x a16 IH]; intros i w; [discriminate|].
  rewrite bytes_of_cons. destruct i as [|i].
  - intros [= ->]. auto.
  - intros H. destruct (IH i w H) as [H1 H2].
    replace (2 * S i)%nat with (S (S (2 * i))) by lia.
    replace (S (S (2 * i)) + 1)%nat with (S (S (2 * i + 1))) by lia.
    auto.
Qed.

(** * The claims *)

(** ** C7: no page *)

(** C7. Whatever the configuration, [generateIndex] on an empty page
    sequence returns the empty object: it has no key, neither [index] nor
    [store], and it differs from every index over documents. *)
Theorem empty_input skips decode (playbook : Playbook.t) :
  generateIndex skips decode playbook [] = EmptyObject
  /\ keys (generateIndex skips decode playbook []) = []
  /\ forall index store,
       generateIndex skips decode playbook [] <> IndexAndStore index store.
Proof. split; [reflexivity|]. split; [reflexivity|]. intros index store H. discriminate. Qed.

(** ** C5: the url of a document *)

Lemma extract_url skips decode siteUrl page :
  Doc.url (extract skips decode siteUrl page) = siteUrl ++ Pub.url (Page.pub page).
Proof. reflexivity. Qed.

(** C5. The [url] of a document is the site URL without one trailing slash
    followed by the published path of the page; with a site URL ending in
    a slash exactly that slash is dropped, and without a site URL the
    [url] is the published path. *)
Theorem document_url skips decode (page : Page.t) :
  (forall playbook,
     Doc.url (extract skips decode (site_url playbook) page)
     = trim_trailing_slash (default [] (Playbook.site_url playbook))
         ++ Pub.url (Page.pub page))
  /\ (forall base,
        Doc.url (extract skips decode
                   (site_url (Playbook.mk (Some (base ++ js "/")))) page)
        = base ++ Pub.url (Page.pub page))
  /\ Doc.url (extract skips decode (site_url (Playbook.mk None)) page)
     = Pub.url (Page.pub page).
Proof.
  split; [|split].
  - intros playbook. rewrite extract_url, site_url_spec. reflexivity.
  - intros base. rewrite extract_url, site_url_spec. simpl.
    rewrite trim_trailing_slash_app. reflexivity.
  - reflexivity.
Qed.

Example document_url_ex skips decode :
  Doc.url (extract skips decode
             (site_url (Playbook.mk (Some (js "https://ex.com/"))))
             (Page.mk [] (Src.mk [] [] []) (Pub.mk (js "/a/b.html"))))
  = js "https://ex.com/a/b.html".
Proof. reflexivity. Qed.

(** ** C2: what the index builder is given *)


Example heading_reference_ex (U : jsstring) :
  records_of (Doc.mk [] [] [] [] [] U [HeadingRef.mk (js "Section") (js "sec-1")])
  = [PageRecord (Doc.mk [] [] [] [] [] U [HeadingRef.mk (js "Section") (js "sec-1")]);
     HeadingRecord (js "Section") (U ++ js "#sec-1")].
Proof. reflexivity. Qed.

(** ** C3: the store *)



(** ** C6 and C10: the text of a document *)

Lemma extract_text skips decode siteUrl page :
  Doc.text (extract skips decode siteUrl page)
  = clean (decode (article_text skips page)).
Proof. reflexivity. Qed.


Example text_normalization_ex :
  Doc.text
    (extract skip_none decode_basic []
       (page_of
          [el "article" [("class", "doc")%string]
             [Text (js "
   a	 b

c   ")]]))
  = js "a b c".
Proof. vm_compute. reflexivity. Qed.

(** C10. When the decoded text of the article region mentions [<b>] after
    a prefix without [<], the [text] of the document is the one it would
    have without the mention: the decoder runs before the tags are
    removed, so markup that the prose only names is taken for a tag. *)
Theorem escaped_markup_removed skips decode siteUrl (page : Page.t)
    (pre post : jsstring) :
  decode (article_text skips page) = pre ++ js "<b>" ++ post ->
  60 ∉ pre ->
  Doc.text (extract skips decode siteUrl page) = clean (pre ++ post).
Proof.
  intros E Hpre. rewrite extract_text, E. unfold clean.
  rewrite (strip_tags_app pre (js "<b>" ++ post)), (strip_tags_app pre post)
    by exact Hpre.
  change (js "<b>" ++ post) with (60 :: [98] ++ 62 :: post).
  rewrite strip_tags_tag; [reflexivity|discriminate|].
  intros H. apply list_elem_of_singleton in H. discriminate.
Qed.

Lemma escaped_markup_removed_witness :
  decode_basic (article_text skip_none page_prose)
    = js "Use " ++ js "<b>" ++ js " for bold"
  /\ (60 ∉ js "Use ")
  /\ Doc.text (extract skip_none decode_basic [] page_prose) = js "Use for bold".
Proof.
  assert (H1 : decode_basic (article_text skip_none page_prose)
               = js "Use " ++ js "<b>" ++ js " for bold") by (vm_compute; reflexivity).
  assert (H2 : 60 ∉ js "Use ").
  { apply (bool_decide_unpack (60 ∉ js "Use ")). vm_compute. exact I. }
  split; [exact H1|]. split; [exact H2|].
  exact (escaped_markup_removed skip_none decode_basic [] page_prose
           (js "Use ") (js " for bold") H1 H2).
Defined.

(** The same when the page source escapes the tag once, and the parser
    hands over the text [Use <b> for bold]. *)
Example escaped_markup_ex :
  Doc.text
    (extract skip_none decode_basic []
       (page_of
          [el "article" [("class", "doc")%string]
             [el "p" [] [Text (js "Use <b> for bold")]]]))
  = js "Use for bold".
Proof. vm_compute. reflexivity. Qed.

(** ** C8: pages without article region or without h1 *)

(** C8. The extraction is a total function.  With a decoder that yields
    the empty text for the empty text, a page without article region
    gets an empty title, an empty text and no titles, and a page without
    h1 in the article region an empty title; wherever the page stands
    among the pages, the index is built and holds its record. *)
Theorem malformed_page skips decode siteUrl (page : Page.t) :
  decode [] = [] ->
  let doc := extract skips decode siteUrl page in
  (article page = [] ->
     Doc.title doc = [] /\ Doc.text doc = [] /\ Doc.titles doc = [])
  /\ (h1 page = [] -> Doc.title doc = [])
  /\ (forall playbook before after,
        exists index store,
          generateIndex skips decode playbook (before ++ page :: after)
          = IndexAndStore index store
          /\ PageRecord (extract skips decode (site_url playbook) page)
             ∈ Builder.documents index).
Proof.
  intros Hd doc. split; [|split]; cycle 2.
  { intros playbook before after. eexists _, _. split.
    - apply generateIndex_eq. destruct before; discriminate.
    - rewrite configure_eq. simpl. unfold documents.
      rewrite List.map_app, flat_map_app. apply elem_of_app. right.
      simpl. apply elem_of_cons. left. reflexivity. }
  - intros Ha.
    assert (Hh : h1 page = []) by (unfold h1; rewrite Ha; reflexivity).
    assert (Hs : subheadings page = []) by (unfold subheadings; rewrite Ha; reflexivity).
    assert (He : each_subheading skips page = ([], [])).
    { unfold each_subheading, h1_removed. rewrite Hs, Hh. reflexivity. }
    assert (Ht : article_text skips page = []).
    { unfold article_text. rewrite Ha. reflexivity. }
    unfold doc, extract. rewrite Hh, He, Ht, Hd. auto.
  - intros Hh. unfold doc, extract. rewrite Hh. reflexivity.
Qed.

Lemma malformed_page_witness :
  decode_basic [] = []
  /\ article page_no_article = []
  /\ Doc.title (extract skip_none decode_basic [] page_no_article) = []
  /\ Doc.text (extract skip_none decode_basic [] page_no_article) = []
  /\ Doc.titles (extract skip_none decode_basic [] page_no_article) = [].
Proof.
  assert (H1 : decode_basic [] = []) by reflexivity.
  assert (H2 : article page_no_article = []) by (vm_compute; reflexivity).
  split; [exact H1|]. split; [exact H2|].
  exact (proj1 (malformed_page skip_none decode_basic [] page_no_article H1) H2).
Defined.

(** ** C1: the title *)

(** C1 does not hold as stated: with two h1 headings the title is not the
    text of the first, and the text of the first is in [text] when the
    body repeats it. *)
Lemma title_first_h1_counterexample :
  let doc := extract skip_none decode_basic [] page_two_h1 in
  match h1 page_two_h1 with
  | h :: _ =>
      text skip_none [] h.1 h.2 = js "Intro"
      /\ Doc.title doc <> text skip_none [] h.1 h.2
      /\ Doc.text doc = text skip_none [] h.1 h.2 ++ js " to the tool"
  | [] => False
  end.
Proof. vm_compute. split; [reflexivity|]. split; [discriminate|reflexivity]. Qed.

(** C1, amended. The title is the concatenation of the texts of all the
    h1 headings below the article region, in the order of the selection
    (document order when the page has one article region), hence the text
    of the h1 when there is one; the article region is made of the
    [article] elements of class [doc], and these headings are the h1
    elements below one of them; after the extraction no h1 is left below
    the article region; and [text] is made from the text of the article
    region outside its headings. *)
Theorem title_extraction skips decode siteUrl (page : Page.t) :
  let doc := extract skips decode siteUrl page in
  Doc.title doc
  = concat (List.map (fun h => text_outside skips (fun _ => false) h.2) (h1 page))
  /\ (forall h, h1 page = [h] ->
        Doc.title doc = text_outside skips (fun _ => false) h.2)
  /\ (forall a, a ∈ article page <->
        sel_article_doc a.2 = true /\ below [] [root (Page.contents page)] a)
  /\ (forall r, r ∈ h1 page <-> sel_h1 r.2 = true /\ below [] (article page) r)
  /\ (forall a, article page = [a] -> document_order (h1 page))
  /\ find (final_tree skips page) sel_h1 (article page) = []
  /\ Doc.text doc
     = clean (decode (concat
         (List.map (fun a => text_outside skips is_heading a.2) (article page)))).
Proof.
  intros doc. split; [apply title_whole|].
  split; [|split; [|split; [|split; [|split]]]].
  - intros h Hh. unfold doc, extract. simpl. rewrite title_whole, Hh. simpl.
    apply app_nil_r.
  - apply elem_of_article.
  - apply elem_of_h1.
  - apply h1_document_order.
  - apply no_h1_left.
  - unfold doc. rewrite extract_text, article_text_outside. reflexivity.
Qed.

Example title_extraction_ex :
  let doc :=
    extract skip_none decode_basic []
      (page_of
         [el "nav" [] [Text (js "Home")];
          el "article" [("class", "doc")%string]
            [el "h1" [] [Text (js "Intro")]; el "p" [] [Text (js "Body text")]]]) in
  Doc.title doc = js "Intro" /\ Doc.text doc = js "Body text".
Proof. vm_compute. split; reflexivity. Qed.

(** ** C4: the sub-headings *)



Example subheading_extraction_ex :
  let doc :=
    extract skip_none decode_basic []
      (page_of
         [el "article" [("class", "doc")%string]
            [el "h2" [("id", "a")%string] [Text (js "With")];
             el "p" [] [Text (js "one")];
             el "h2" [] [Text (js "Without")];
             el "p" [] [Text (js "two")]]]) in
  Doc.titles doc = [HeadingRef.mk (js "With") (js "a")]
  /\ Doc.text doc = js "onetwo".
Proof. vm_compute. split; reflexivity. Qed.

(** A sub-heading inside the h1 goes with it: it is not visited, and its
    text is part of the title. *)
Example subheading_inside_h1_ex :
  let doc := extract skip_none decode_basic [] page_h2_in_h1 in
  Doc.title doc = js "GuideSetup" /\ Doc.titles doc = [] /\ Doc.text doc = js "Body".
Proof. vm_compute. repeat split; reflexivity. Qed.

(** An article region detached with an h1 stays in the selection: it is
    searched after the attached one, and its text is read. *)
Example detached_article_ex :
  let doc := extract skip_none decode_basic [] page_nested_article in
  Doc.title doc = js "TinnerX"
  /\ Doc.titles doc
     = [HeadingRef.mk (js "YZ") (js "y"); HeadingRef.mk (js "Z") (js "z");
        HeadingRef.mk (js "X") (js "x")]
  /\ Doc.text doc = js "tailinner".
Proof. vm_compute. repeat split; reflexivity. Qed.

(** ** C9: the buffer given to the compressor *)

(** C9. The buffer of a serialised index has two bytes per unit of the
    text, the low and the high byte of that unit in the byte order of the
    host; so, with an inflater that undoes the compressor and a parser
    that undoes the serialiser, reading the inflated bytes as 16-bit
    units in that byte order gives the text back, and parsing it the
    value that was packed. *)
Theorem packaging_round_trip (little_endian : bool) (value : Type)
    (stringify : value -> jsstring) (parse : jsstring -> option value)
    (deflate inflate : list Z -> list Z) (index : value) :
  wf_string (stringify index) ->
  (forall b, inflate (deflate b) = b) ->
  parse (stringify index) = Some index ->
  let str := stringify index in
  let buffer := str2buffer little_endian str in
  length buffer = (2 * length str)%nat
  /\ (forall (i : nat) c, str !! i = Some c ->
        let lo := c mod 256 in
        let hi := c / 256 in
        buffer !! (2 * i)%nat = Some (if little_endian then lo else hi)
        /\ buffer !! (2 * i + 1)%nat = Some (if little_endian then hi else lo)
        /\ 0 <= lo < 256 /\ 0 <= hi < 256 /\ lo + 256 * hi = c)
  /\ buffer2str little_endian
       (inflate (compress little_endian value stringify deflate index)) = str
  /\ decompress little_endian value parse inflate
       (compress little_endian value stringify deflate index)
     = Some index.
Proof.
  intros Hwf Hinf Hparse str buffer.
  assert (E : buffer = bytes_of little_endian str).
  { unfold buffer. rewrite str2buffer_eq, wf_string_mod by exact Hwf. reflexivity. }
  split; [rewrite E; apply length_bytes_of|]. split; [|split].
  - intros i c Hc lo hi. rewrite E.
    destruct (bytes_of_lookup little_endian str i c Hc) as [H1 H2].
    split; [exact H1|]. split; [exact H2|].
    assert (Hu : code_unit c).
    { unfold wf_string in Hwf. rewrite Forall_forall in Hwf.
      eapply Hwf, list_elem_of_lookup_2, Hc. }
    unfold code_unit in Hu. unfold lo, hi. split; [apply Z.mod_pos_bound; lia|].
    split; [split; [apply Z.div_pos; lia|apply Z.div_lt_upper_bound; lia]|].
    rewrite Z.add_comm. symmetry. apply Z.div_mod. lia.
  - unfold compress. rewrite Hinf. fold str. fold buffer. rewrite E.
    apply buffer2str_bytes_of.
  - unfold decompress, compress. rewrite Hinf. fold str. fold buffer.
    rewrite E, buffer2str_bytes_of. exact Hparse.
Qed.

Lemma packaging_round_trip_witness :
  wf_string (braces [233; 8364; 65535])
  /\ str2buffer true (braces [233; 8364; 65535])
     = [123; 0; 233; 0; 172; 32; 255; 255; 125; 0]
  /\ decompress true jsstring unbraces read_block
       (compress true jsstring braces store_block [233; 8364; 65535])
     = Some [233; 8364; 65535].
Proof.
  assert (H1 : wf_string (braces [233; 8364; 65535])).
  { vm_compute. repeat constructor; discriminate. }
  split; [exact H1|]. split; [vm_compute; reflexivity|].
  exact (proj2 (proj2 (proj2
    (packaging_round_trip true jsstring braces unbraces store_block read_block
       [233; 8364; 65535] H1 (fun b => eq_refl) eq_refl)))).
Defined.

(** * Further properties *)

(** ** The tags of line 61 *)

Lemma drop_while_nil_gt (r : jsstring) :
  drop_while (fun x => negb (x =? 62)) r = [] <-> (62 ∉ r).
Proof.
  induction r as [|d r IH]; simpl.
  - split; [intros _ H; inversion H|reflexivity].
  - destruct (Z.eqb_spec d 62) as [->|Hd]; simpl.
    + split; [discriminate|]. intros H. exfalso. apply H. apply elem_of_cons. auto.
    + rewrite IH. rewrite not_elem_of_cons. split; [auto|intros [_ H]; exact H].
Qed.

(** When the pattern does not match at a [<]. *)
Lemma re_tag_None (c : Z) (r : jsstring) :
  re_tag (c :: r) = None <->
  c <> 60 \/ match r with [] => True | d :: _ => d = 62 \/ (62 ∉ r) end.
Proof.
  unfold re_tag. destruct (Z.eqb_spec c 60) as [->|Hc]; [|split; auto].
  destruct r as [|d r]; [simpl; split; auto|].
  destruct (Z.eqb_spec d 62) as [->|Hd].
  - simpl. split; auto.
  - pose proof (drop_while_nil_gt (d :: r)) as Hn.
    cbn [take_while]. replace (negb (d =? 62)) with true
      by (symmetry; apply negb_true_iff, Z.eqb_neq, Hd).
    destruct (drop_while (fun x => negb (x =? 62)) (d :: r)) as [|g l].
    + split; [intros _; right; right; apply Hn; reflexivity|reflexivity].
    + split; [discriminate|]. intros [H|[H|H]]; [congruence|contradiction|].
      apply Hn in H. discriminate.
Qed.

Lemma re_tag_Some (s : jsstring) (n : nat) :
  re_tag s = Some n ->
  exists body post,
    body <> [] /\ (62 ∉ body) /\ s = 60 :: body ++ 62 :: post
    /\ n = S (S (length body)).
Proof.
  unfold re_tag. destruct s as [|c r]; [discriminate|].
  destruct (Z.eqb_spec c 60) as [->|Hc]; [|discriminate].
  pose proof (take_drop_while (fun x => negb (x =? 62)) r) as E.
  assert (Hb : 62 ∉ take_while (fun x => negb (x =? 62)) r).
  { clear. induction r as [|d r IH]; simpl; [intros H; inversion H|].
    destruct (Z.eqb_spec d 62) as [->|Hd]; simpl; [intros H; inversion H|].
    rewrite not_elem_of_cons. auto. }
  assert (Hg : forall g l, drop_while (fun x => negb (x =? 62)) r = g :: l -> g = 62).
  { clear. induction r as [|d r IH]; simpl; [discriminate|].
    destruct (Z.eqb_spec d 62) as [->|Hd]; simpl; [intros g l [= <- _]; reflexivity|].
    exact IH. }
  destruct (take_while _ r) as [|b body]; [discriminate|].
  destruct (drop_while _ r) as [|g post] eqn:Hdrop; [discriminate|].
  intros [= <-]. rewrite (Hg g post eq_refl) in E.
  exists (b :: body), post. split; [discriminate|]. split; [exact Hb|].
  split; [rewrite <- E; reflexivity|reflexivity].
Qed.

(** [strip_tags], match by match. *)
Lemma strip_tags_cons (c : Z) (r : jsstring) :
  strip_tags (c :: r) =
  match re_tag (c :: r) with
  | Some (S k) => strip_tags (drop k r)
  | _ => c :: strip_tags r
  end.
Proof.
  unfold strip_tags, replace. cbn [replace_from].
  destruct (re_tag (c :: r)) as [[|k]|]; try reflexivity.
  simpl. apply replace_from_skip.
Qed.

Lemma strip_tags_tag_free (s : jsstring) : tag_free s -> strip_tags s = s.
Proof.
  induction s as [|c r IH]; [reflexivity|]. intros [H1 H2].
  rewrite strip_tags_cons, H1, IH by exact H2. reflexivity.
Qed.

(** Induction on the length of a string. *)
Lemma length_ind (P : jsstring -> Prop) :
  (forall s, (forall t, (length t < length s)%nat -> P t) -> P s) ->
  forall s, P s.
Proof.
  intros H s. remember (length s) as n eqn:E. revert s E.
  induction n as [n IH] using lt_wf_ind. intros s ->.
  apply H. intros t Ht. eapply IH; [exact Ht|reflexivity].
Qed.

(** [strip_tags] only removes units. *)
Lemma strip_tags_sublist (s : jsstring) : strip_tags s `sublist_of` s.
Proof.
  induction s as [s IH] using length_ind.
  destruct s as [|c r]; [reflexivity|]. rewrite strip_tags_cons.
  destruct (re_tag (c :: r)) as [[|k]|].
  - apply sublist_skip, IH. simpl. lia.
  - apply sublist_cons. etrans; [|apply sublist_drop].
    apply IH. simpl. rewrite length_drop. lia.
  - apply sublist_skip, IH. simpl. lia.
Qed.

Lemma strip_tags_is_tag_free (s : jsstring) : tag_free (strip_tags s).
Proof.
  induction s as [s IH] using length_ind.
  destruct s as [|c r]; [exact I|]. rewrite strip_tags_cons.
  destruct (re_tag (c :: r)) as [[|k]|] eqn:E.
  - apply re_tag_Some in E as (body & post & _ & _ & _ & E). discriminate.
  - apply IH. simpl. rewrite length_drop. lia.
  - split; [|apply IH; simpl; lia].
    apply re_tag_None. apply re_tag_None in E as [E|E]; [left; exact E|right].
    destruct r as [|d r]; [exact I|].
    destruct E as [->|E].
    + rewrite strip_tags_cons.
      replace (re_tag (62 :: r)) with (@None nat)
        by (symmetry; apply re_tag_None; left; discriminate).
      left. reflexivity.
    + destruct (strip_tags (d :: r)) as [|d' r'] eqn:Es; [exact I|].
      right. intros H. apply E. rewrite <- Es in H.
      eapply elem_of_sublist; [exact H|apply strip_tags_sublist].
Qed.

Lemma tag_free_no_tag (s : jsstring) : tag_free s <-> ~ has_tag s.
Proof.
  split.
  - intros Hf (pre & body & post & Hne & Hb & ->).
    induction pre as [|c pre IH]; cbn [tag_free app] in Hf.
    + destruct Hf as [Hf _]. rewrite (re_tag_match body post Hne Hb) in Hf.
      discriminate.
    + apply IH, Hf.
  - induction s as [|c r IH]; [intros _; exact I|]. intros Hn. cbn [tag_free]. split.
    + destruct (re_tag (c :: r)) as [n|] eqn:E; [|reflexivity].
      exfalso. apply re_tag_Some in E as (body & post & Hne & Hb & E & _).
      apply Hn. exists [], body, post. auto.
    + apply IH. intros (pre & body & post & Hne & Hb & ->).
      apply Hn. exists (c :: pre), body, post. auto.
Qed.

Lemma tag_free_map (f : Z -> Z) (s : jsstring) :
  (forall c, f c = 60 <-> c = 60) -> (forall c, f c = 62 <-> c = 62) ->
  tag_free s -> tag_free (List.map f s).
Proof.
  intros H60 H62. induction s as [|c r IH]; [trivial|]. intros [H1 H2].
  cbn [List.map tag_free]. split; [|apply IH, H2].
  change (re_tag (List.map f (c :: r)) = None).
  apply re_tag_None. apply re_tag_None in H1 as [H1|H1].
  - left. intros E. apply H1, H60, E.
  - right. destruct r as [|d r]; [exact I|]. cbn [List.map].
    destruct H1 as [->|H1]; [left; apply H62; reflexivity|right].
    change (62 ∉ List.map f (d :: r)).
    intros (x & E & Hx)%list_elem_of_In%in_map_iff.
    apply H1. apply H62 in E as ->. apply list_elem_of_In, Hx.
Qed.

Lemma unit_to_space_60 (u : Z) :
  u <> 60 -> forall c, (if c =? u then 32 else c) = 60 <-> c = 60.
Proof. intros Hu c. destruct (Z.eqb_spec c u) as [->|H]; [split; congruence|reflexivity]. Qed.

Lemma unit_to_space_62 (u : Z) :
  u <> 62 -> forall c, (if c =? u then 32 else c) = 62 <-> c = 62.
Proof. intros Hu c. destruct (Z.eqb_spec c u) as [->|H]; [split; congruence|reflexivity]. Qed.

Lemma elem_of_collapse (b : bool) (s : jsstring) (x : Z) :
  x ∈ collapse b s -> x = 32 \/ x ∈ s.
Proof.
  revert b. induction s as [|c r IH]; intros b; simpl; [intros H; inversion H|].
  destruct (is_space c).
  - destruct b.
    + intros [H|H]%IH; [auto|right; apply elem_of_cons; auto].
    + intros [->|[H|H]%IH]%elem_of_cons; [auto|auto|right; apply elem_of_cons; auto].
  - intros [->|[H|H]%IH]%elem_of_cons;
      [right; apply elem_of_cons; auto|auto|right; apply elem_of_cons; auto].
Qed.

Lemma tag_free_collapse (b : bool) (s : jsstring) :
  tag_free s -> tag_free (collapse b s).
Proof.
  revert b. induction s as [|c r IH]; intros b; [trivial|]. intros [H1 H2].
  cbn [collapse]. destruct (is_space c) eqn:Hc.
  - destruct b; [apply IH, H2|]. split; [|apply IH, H2].
    apply re_tag_None. left. discriminate.
  - split; [|apply IH, H2]. apply re_tag_None.
    apply re_tag_None in H1 as [H1|H1]; [left; exact H1|right].
    destruct r as [|d r]; [exact I|].
    destruct H1 as [->|H1].
    + left. reflexivity.
    + destruct (collapse false (d :: r)) as [|d' r'] eqn:E; [exact I|].
      right. rewrite <- E. intros [H|H]%elem_of_collapse; [discriminate|].
      exact (H1 H).
Qed.

Lemma tag_free_drop_while (f : Z -> bool) (s : jsstring) :
  tag_free s -> tag_free (drop_while f s).
Proof.
  induction s as [|c r IH]; [trivial|]. intros H. cbn [drop_while].
  destruct (f c); [apply IH, H|exact H].
Qed.

Lemma drop_trailing_prefix (s : jsstring) : drop_trailing s `prefix_of` s.
Proof.
  induction s as [|c r IH]; [reflexivity|]. simpl.
  destruct (drop_trailing r) as [|d r'].
  - destruct (is_space c); [apply prefix_nil|apply prefix_cons, prefix_nil].
  - apply prefix_cons, IH.
Qed.

Lemma tag_free_drop_trailing (s : jsstring) :
  tag_free s -> tag_free (drop_trailing s).
Proof.
  induction s as [|c r IH]; [trivial|]. intros [H1 H2]. specialize (IH H2).
  cbn [drop_trailing]. pose proof (drop_trailing_prefix r) as Hp.
  destruct (drop_trailing r) as [|d' r'] eqn:E.
  - destruct (is_space c); [exact I|]. split; [|exact I].
    apply re_tag_None. right. exact I.
  - split; [|exact IH]. apply re_tag_None.
    apply re_tag_None in H1 as [H1|H1]; [left; exact H1|right].
    destruct Hp as [k Hk]. destruct r as [|d r]; [discriminate|].
    injection Hk as -> Hk. destruct H1 as [->|H1]; [left; reflexivity|right].
    intros H. apply H1. rewrite Hk. rewrite app_comm_cons.
    apply elem_of_app. left. exact H.
Qed.

(** The cleaned text holds no tag. *)
Lemma clean_tag_free (s : jsstring) : tag_free (clean s).
Proof.
  rewrite clean_spec.
  apply tag_free_drop_trailing, tag_free_drop_while, tag_free_collapse.
  apply tag_free_map;
    [apply unit_to_space_60; discriminate|apply unit_to_space_62; discriminate|].
  apply tag_free_map;
    [apply unit_to_space_60; discriminate|apply unit_to_space_62; discriminate|].
  apply strip_tags_is_tag_free.
Qed.

Lemma spaced_space (b : bool) (t : jsstring) (c : Z) :
  spaced b t -> c ∈ t -> is_space c = true -> c = 32.
Proof.
  revert b. induction t as [|d r IH]; intros b H Hc Hs; [inversion Hc|].
  simpl in H. apply elem_of_cons in Hc as [->|Hc].
  - rewrite Hs in H. apply H.
  - destruct (is_space d); [destruct H as (_ & _ & H)|]; eapply IH; eauto.
Qed.

Lemma spaced_unit_to_space (b : bool) (u : Z) (t : jsstring) :
  is_space u = true -> u <> 32 -> spaced b t ->
  List.map (fun c => if c =? u then 32 else c) t = t.
Proof.
  intros Hu Hne H. rewrite <- (map_id t) at 2. apply map_ext_in.
  intros c Hc%list_elem_of_In. destruct (Z.eqb_spec c u) as [->|E]; [|reflexivity].
  exfalso. apply Hne. eapply spaced_space; eauto.
Qed.

Lemma spaced_collapse (b : bool) (t : jsstring) : spaced b t -> collapse b t = t.
Proof.
  revert b. induction t as [|c r IH]; intros b; [reflexivity|]. simpl.
  destruct (is_space c).
  - intros (-> & -> & H). rewrite (IH _ H). reflexivity.
  - intros H. rewrite (IH _ H). reflexivity.
Qed.

Lemma spaced_drop_while (t : jsstring) : spaced true t -> drop_while is_space t = t.
Proof.
  destruct t as [|c r]; [reflexivity|]. simpl.
  destruct (is_space c); [intros (_ & H & _); discriminate|reflexivity].
Qed.

Lemma drop_trailing_id (t : jsstring) :
  (forall c, last t = Some c -> is_space c = false) -> drop_trailing t = t.
Proof.
  induction t as [|c r IH]; [reflexivity|]. intros H. simpl.
  destruct r as [|d r].
  - simpl. rewrite (H c eq_refl). reflexivity.
  - rewrite IH; [reflexivity|]. intros x Hx. apply H. exact Hx.
Qed.

Lemma clean_fixed (t : jsstring) : tag_free t -> single_spaced t -> clean t = t.
Proof.
  intros Hf [Hs Hl]. rewrite clean_spec, (strip_tags_tag_free t Hf).
  rewrite (spaced_unit_to_space true 10 t), (spaced_unit_to_space true 13 t);
    [|reflexivity|discriminate|exact Hs|reflexivity|discriminate|exact Hs].
  rewrite (spaced_collapse false t) by (apply spaced_weaken, Hs).
  rewrite (spaced_drop_while t Hs). apply drop_trailing_id, Hl.
Qed.

Lemma length_collapse (b : bool) (s : jsstring) :
  (length (collapse b s) <= length s)%nat.
Proof.
  revert b. induction s as [|c r IH]; intros b; simpl; [lia|].
  destruct (is_space c); [destruct b|]; simpl;
    [specialize (IH true)|specialize (IH true)|specialize (IH false)]; lia.
Qed.

Lemma length_drop_while (f : Z -> bool) (s : jsstring) :
  (length (drop_while f s) <= length s)%nat.
Proof. induction s as [|c r IH]; simpl; [lia|]. destruct (f c); simpl; lia. Qed.

Lemma length_clean (s : jsstring) : (length (clean s) <= length s)%nat.
Proof.
  rewrite clean_spec.
  etrans; [apply prefix_length, drop_trailing_prefix|].
  etrans; [apply length_drop_while|]. etrans; [apply length_collapse|].
  rewrite !length_map. apply sublist_length, strip_tags_sublist.
Qed.

Lemma drop_trailing_nil (s : jsstring) :
  drop_trailing s = [] <-> Forall (fun c => is_space c = true) s.
Proof.
  induction s as [|c r IH]; [split; [constructor|reflexivity]|]. simpl.
  rewrite Forall_cons, <- IH. destruct (drop_trailing r) as [|d r'].
  - destruct (is_space c); split; auto; try discriminate.
    intros [H _]. discriminate.
  - split; [discriminate|intros [_ H]; discriminate].
Qed.

Lemma drop_while_spaces_nil (s : jsstring) :
  Forall (fun c => is_space c = true) (drop_while is_space s) <->
  Forall (fun c => is_space c = true) s.
Proof.
  induction s as [|c r IH]; [reflexivity|]. simpl.
  destruct (is_space c) eqn:Hc; [|reflexivity].
  rewrite IH, Forall_cons. split; [auto|intros [_ H]; exact H].
Qed.

Lemma collapse_spaces (b : bool) (s : jsstring) :
  Forall (fun c => is_space c = true) (collapse b s) <->
  Forall (fun c => is_space c = true) s.
Proof.
  revert b. induction s as [|c r IH]; intros b; [reflexivity|]. simpl.
  destruct (is_space c) eqn:Hc.
  - destruct b; rewrite ?Forall_cons, IH; split; tauto.
  - rewrite !Forall_cons, IH. reflexivity.
Qed.

Lemma unit_to_space_spaces (u : Z) (s : jsstring) :
  is_space u = true ->
  Forall (fun c => is_space c = true) (List.map (fun c => if c =? u then 32 else c) s) <->
  Forall (fun c => is_space c = true) s.
Proof.
  intros Hu. induction s as [|c r IH]; [reflexivity|]. cbn [List.map].
  rewrite !Forall_cons, IH.
  destruct (Z.eqb_spec c u) as [->|E]; [|reflexivity].
  rewrite Hu. split; intros [_ H]; auto.
Qed.

Lemma clean_nil (s : jsstring) :
  clean s = [] <-> Forall (fun c => is_space c = true) (strip_tags s).
Proof.
  rewrite clean_spec, drop_trailing_nil, drop_while_spaces_nil, collapse_spaces.
  rewrite !unit_to_space_spaces by reflexivity. reflexivity.
Qed.

(** ** What the chain keeps *)

Lemma non_space_cons (c : Z) (s : jsstring) :
  non_space (c :: s) = if is_space c then non_space s else c :: non_space s.
Proof. unfold non_space. simpl. destruct (is_space c); reflexivity. Qed.

Lemma non_space_unit_to_space (u : Z) (s : jsstring) :
  is_space u = true ->
  non_space (List.map (fun c => if c =? u then 32 else c) s) = non_space s.
Proof.
  intros Hu. induction s as [|c r IH]; [reflexivity|]. cbn [List.map].
  rewrite !non_space_cons, IH. destruct (Z.eqb_spec c u) as [->|_]; [|reflexivity].
  rewrite Hu. reflexivity.
Qed.

Lemma non_space_collapse (b : bool) (s : jsstring) :
  non_space (collapse b s) = non_space s.
Proof.
  revert b. induction s as [|c r IH]; intros b; [reflexivity|]. cbn [collapse].
  rewrite (non_space_cons c r). destruct (is_space c) eqn:E.
  - destruct b; [apply IH|]. rewrite non_space_cons. apply IH.
  - rewrite non_space_cons, E, IH. reflexivity.
Qed.

Lemma non_space_drop_while (s : jsstring) :
  non_space (drop_while is_space s) = non_space s.
Proof.
  induction s as [|c r IH]; [reflexivity|]. cbn [drop_while].
  rewrite (non_space_cons c r). destruct (is_space c) eqn:E; [exact IH|].
  rewrite non_space_cons, E. reflexivity.
Qed.

Lemma non_space_drop_trailing (s : jsstring) :
  non_space (drop_trailing s) = non_space s.
Proof.
  induction s as [|c r IH]; [reflexivity|]. cbn [drop_trailing].
  rewrite (non_space_cons c r), <- IH.
  destruct (drop_trailing r) as [|d r'].
  - destruct (is_space c) eqn:E; [reflexivity|]. rewrite non_space_cons, E. reflexivity.
  - rewrite non_space_cons. reflexivity.
Qed.

Lemma non_space_clean (s : jsstring) : non_space (clean s) = non_space (strip_tags s).
Proof.
  rewrite clean_spec, non_space_drop_trailing, non_space_drop_while,
    non_space_collapse, !non_space_unit_to_space by reflexivity.
  reflexivity.
Qed.

Lemma elem_of_non_space (s : jsstring) (c : Z) :
  c ∈ non_space s <-> c ∈ s /\ is_space c = false.
Proof.
  unfold non_space. rewrite list_elem_of_In, filter_In, <- list_elem_of_In.
  rewrite negb_true_iff. reflexivity.
Qed.

Lemma elem_of_clean (s : jsstring) (c : Z) : c ∈ clean s -> c = 32 \/ c ∈ s.
Proof.
  intros H. destruct (is_space c) eqn:E.
  - left. pose proof (clean_single_spaced s) as [Hs _].
    apply list_elem_of_split in H as (pre & post & Hc). rewrite Hc in Hs.
    clear Hc. revert Hs. generalize true.
    induction pre as [|d pre IH]; intros b; cbn [app spaced].
    + rewrite E. intros [-> _]. reflexivity.
    + destruct (is_space d); [intros (_ & _ & H); exact (IH _ H)|apply IH].
  - right. assert (Hc : c ∈ non_space (clean s)) by (apply elem_of_non_space; auto).
    rewrite non_space_clean in Hc. apply elem_of_non_space in Hc as [Hc _].
    eapply elem_of_sublist; [exact Hc|apply strip_tags_sublist].
Qed.

(** ** Every heading is selected once *)

Lemma doc_before_irrefl (x : path) : ~ doc_before x x.
Proof.
  intros [[_ H]|(p & i & j & dx & dy & Ex & Ey & Hij)]; [apply H; reflexivity|].
  assert (El : length dx = length dy).
  { apply (f_equal length) in Ex, Ey. rewrite length_app in Ex, Ey.
    simpl in Ex, Ey. lia. }
  rewrite Ex in Ey. apply app_inj_1 in Ey as [_ Ey]; [|exact El].
  injection Ey as Ey. lia.
Qed.

Lemma walk_distinct cut (n : node) (p : path) :
  StronglySorted (fun x y : ref => x.1 <> y.1) (walk cut p n).
Proof.
  eapply SS_impl; [apply walk_document_order|].
  intros x y _ _ H E. cbv beta in H. rewrite E in H.
  exact (doc_before_irrefl _ H).
Qed.

(** Two nodes that reach one position are on one parent chain. *)
Lemma reach_related cut k1 k2 x y :
  reach cut k1 x -> reach cut k2 y -> x.1 = y.1 ->
  k1.1 ∈ ancestors cut k2.1 \/ k2.1 ∈ ancestors cut k1.1.
Proof.
  intros Hx Hy E.
  pose proof (reach_suffix _ _ _ Hx) as H1.
  pose proof (reach_suffix _ _ _ Hy) as H2. rewrite <- E in H2.
  destruct (suffix_weak_total _ _ _ H1 H2) as [H|H].
  - left. eapply reach_ancestors; eassumption.
  - right. rewrite E in H1. eapply reach_ancestors; eassumption.
Qed.

Lemma find_distinct cut test context :
  StronglySorted (fun x y : ref => x.1 <> y.1) (find cut test context).
Proof.
  unfold find, findAll.
  apply SS_filter, SS_flat_map; [|intros k _; apply walk_distinct].
  eapply SS_impl; [apply removeSubsets_unrelated|].
  intros k1 k2 _ _ [Hu1 Hu2] x y [_ Hx]%elem_of_walk [_ Hy]%elem_of_walk E.
  assert (Hx' : reach cut k1 x) by (destruct k1; exact Hx).
  assert (Hy' : reach cut k2 y) by (destruct k2; exact Hy).
  destruct (reach_related cut k1 k2 x y Hx' Hy' E); auto.
Qed.

Lemma SS_NoDup {A B} (f : A -> B) (l : list A) :
  StronglySorted (fun x y => f x <> f y) l -> NoDup (f <$> l).
Proof.
  induction 1 as [|x l _ IH Hx]; [constructor|].
  rewrite fmap_cons. constructor; [|exact IH].
  intros (y & E & Hy)%list_elem_of_fmap. rewrite Forall_forall in Hx.
  exact (Hx y Hy E).
Qed.

Lemma find_NoDup cut test context : NoDup (find cut test context).*1.
Proof. apply SS_NoDup, find_distinct. Qed.

Lemma sel_h1_h2_h6 (n : node) : sel_h1 n = true -> sel_h2_h6 n = false.
Proof.
  unfold sel_h1, sel_h2_h6. intros [_ H]%andb_true_iff.
  apply bool_decide_eq_true in H. rewrite H. destruct (isTag n); reflexivity.
Qed.

(** ** The titles of a document *)

Lemma length_omap_le {A B} (f : A -> option B) (l : list A) :
  (length (omap f l) <= length l)%nat.
Proof.
  induction l as [|x l IH]; [reflexivity|]. rewrite omap_cons.
  destruct (f x); simpl; lia.
Qed.

Lemma heading_of_Some skips (r : ref) (t : HeadingRef.t) :
  heading_of skips r = Some t <->
  exists c v, attr r.2 (js "id") = Some (c :: v)
              /\ t = HeadingRef.mk (text_outside skips sel_h1 r.2) (c :: v).
Proof.
  unfold heading_of. destruct (attr r.2 (js "id")) as [[|c v]|].
  - split; [discriminate|intros (c & v & H & _); discriminate].
  - split.
    + intros [= <-]. exists c, v. auto.
    + intros (c' & v' & [= <- <-] & ->). reflexivity.
  - split; [discriminate|intros (c & v & H & _); discriminate].
Qed.

Lemma extract_titles skips decode siteUrl page :
  Doc.titles (extract skips decode siteUrl page)
  = omap (heading_of skips) (subheadings page).
Proof. apply titles_eq. Qed.

Lemma titles_id_nonempty skips decode siteUrl page t :
  t ∈ Doc.titles (extract skips decode siteUrl page) -> HeadingRef.id t <> [].
Proof.
  rewrite extract_titles. intros (r & _ & H)%list_elem_of_omap.
  apply heading_of_Some in H as (c & v & _ & ->). discriminate.
Qed.

(** ** The records given to the builder *)

Lemma elem_of_records_of (doc : Doc.t) (r : IndexRecord) :
  r ∈ records_of doc <->
  r = PageRecord doc \/
  exists t, t ∈ Doc.titles doc
            /\ r = HeadingRecord (HeadingRef.text t)
                     (Doc.url doc ++ js "#" ++ HeadingRef.id t).
Proof.
  unfold records_of. rewrite elem_of_cons. apply or_iff_compat_l.
  rewrite list_elem_of_In, in_map_iff. split.
  - intros (t & <- & Ht%list_elem_of_In). exists t. auto.
  - intros (t & Ht%list_elem_of_In & ->). exists t. auto.
Qed.

Lemma length_flat_map_records (docs : list Doc.t) :
  length (flat_map records_of docs)
  = (length docs + length (flat_map Doc.titles docs))%nat.
Proof.
  induction docs as [|d docs IH]; [reflexivity|]. simpl.
  rewrite !length_app, length_map, IH. lia.
Qed.

Lemma omap_app {A B} (f : A -> option B) (l k : list A) :
  omap f (l ++ k) = omap f l ++ omap f k.
Proof.
  induction l as [|x l IH]; [reflexivity|]. simpl app. rewrite !omap_cons, IH.
  destruct (f x); reflexivity.
Qed.

(** ** The size of the store *)




Lemma documents_urls skips decode siteUrl (pages : list Page.t) :
  Doc.url <$> documents skips decode siteUrl pages
  = (fun p => siteUrl ++ Pub.url (Page.pub p)) <$> pages.
Proof.
  unfold documents. induction pages as [|p pages IH]; [reflexivity|].
  cbn [List.map]. rewrite !fmap_cons, IH. reflexivity.
Qed.

Lemma documents_urls_NoDup skips decode siteUrl (pages : list Page.t) :
  NoDup ((fun p => Pub.url (Page.pub p)) <$> pages) ->
  NoDup (Doc.url <$> documents skips decode siteUrl pages).
Proof.
  rewrite documents_urls. induction pages as [|p pages IH]; [constructor|].
  rewrite !fmap_cons, !NoDup_cons. intros [Hp Hnd]. split; [|apply IH, Hnd].
  intros (q & E & Hq)%list_elem_of_fmap. apply Hp.
  apply list_elem_of_fmap. exists q. split; [|exact Hq].
  apply app_inv_head in E. exact E.
Qed.

(** ** The site URL *)

Lemma trim_trailing_slash_keep (s : jsstring) :
  last s <> Some 47 -> trim_trailing_slash s = s.
Proof.
  destruct s as [|c s _] using rev_ind; [reflexivity|].
  rewrite last_snoc. intros H. unfold trim_trailing_slash.
  rewrite rev_app_distr. simpl. destruct (Z.eqb_spec c 47) as [->|]; [|reflexivity].
  contradiction.
Qed.

Lemma trim_trailing_slash_cases (s : jsstring) :
  (last s = Some 47 /\ s = trim_trailing_slash s ++ js "/")
  \/ (last s <> Some 47 /\ trim_trailing_slash s = s).
Proof.
  destruct (decide (last s = Some 47)) as [H|H].
  - left. split; [exact H|].
    destruct s as [|c s _] using rev_ind; [discriminate|].
    rewrite last_snoc in H. injection H as ->.
    change [47] with (js "/"). rewrite trim_trailing_slash_app. reflexivity.
  - right. split; [exact H|apply trim_trailing_slash_keep, H].
Qed.

(** ** The buffer *)

Lemma bytes_of_app le (a b : list Z) :
  bytes_of le (a ++ b) = bytes_of le a ++ bytes_of le b.
Proof. unfold bytes_of. apply flat_map_app. Qed.

Lemma bytes_of_range le (a16 : list Z) :
  Forall (fun w => 0 <= w < 65536) a16 ->
  Forall (fun b => 0 <= b < 256) (bytes_of le a16).
Proof.
  induction 1 as [|w a16 Hw _ IH]; [constructor|].
  rewrite bytes_of_cons.
  assert (H1 : 0 <= w mod 256 < 256) by (apply Z.mod_pos_bound; lia).
  assert (H2 : 0 <= w / 256 < 256).
  { split; [apply Z.div_pos; lia|apply Z.div_lt_upper_bound; lia]. }
  destruct le; repeat constructor; try lia; exact IH.
Qed.

Lemma str2buffer_inj le (s1 s2 : jsstring) :
  wf_string s1 -> wf_string s2 ->
  str2buffer le s1 = str2buffer le s2 -> s1 = s2.
Proof.
  intros H1 H2 E. rewrite !str2buffer_eq, !wf_string_mod in E by assumption.
  apply (f_equal (buffer2str le)) in E. rewrite !buffer2str_bytes_of in E.
  exact E.
Qed.

(** ** The reference of a record *)

Lemma titles_ids skips (l : list ref) :
  HeadingRef.id <$> omap (heading_of skips) l = omap heading_id l.
Proof.
  induction l as [|r l IH]; [reflexivity|]. rewrite !omap_cons.
  unfold heading_of at 1, heading_id at 1.
  destruct (attr r.2 (js "id")) as [[|c v]|]; [exact IH| |exact IH].
  rewrite fmap_cons, IH. reflexivity.
Qed.

Lemma omap_record_page (docs : list Doc.t) :
  omap record_page (flat_map records_of docs) = docs.
Proof.
  induction docs as [|d docs IH]; [reflexivity|].
  cbn [flat_map]. rewrite omap_app, IH. unfold records_of.
  rewrite omap_cons. cbn [record_page]. cbn [app]. f_equal.
  replace (omap record_page _) with (@nil Doc.t); [reflexivity|].
  induction (Doc.titles d) as [|t ts IHt]; [reflexivity|]. exact IHt.
Qed.

Lemma refs_records_of (d : Doc.t) :
  record_ref <$> records_of d
  = Doc.url d :: ((fun t => Doc.url d ++ js "#" ++ HeadingRef.id t) <$> Doc.titles d).
Proof.
  unfold records_of. rewrite fmap_cons. f_equal.
  induction (Doc.titles d) as [|t ts IH]; [reflexivity|].
  cbn [List.map]. rewrite !fmap_cons, IH. reflexivity.
Qed.

Lemma elem_of_refs (docs : list Doc.t) (x : jsstring) :
  x ∈ record_ref <$> flat_map records_of docs ->
  exists d, d ∈ docs /\
    (x = Doc.url d \/
     exists t, t ∈ Doc.titles d /\ x = Doc.url d ++ js "#" ++ HeadingRef.id t).
Proof.
  intros (r & -> & Hr)%list_elem_of_fmap.
  apply list_elem_of_In, in_flat_map in Hr as (d & Hd%list_elem_of_In & Hr%list_elem_of_In).
  exists d. split; [exact Hd|].
  apply elem_of_records_of in Hr as [->|(t & Ht & ->)]; [left; reflexivity|].
  right. exists t. auto.
Qed.

(** Two texts cut at their first [c] agree on both sides. *)
Lemma app_sep_inj (c : Z) (a a' b b' : jsstring) :
  c ∉ a -> c ∉ a' -> a ++ c :: b = a' ++ c :: b' -> a = a' /\ b = b'.
Proof.
  revert a'. induction a as [|x a IH]; intros [|x' a'] Ha Ha' E; simpl in E.
  - injection E as ->. auto.
  - injection E as <- _. exfalso. apply Ha'. apply elem_of_cons. auto.
  - injection E as -> _. exfalso. apply Ha. apply elem_of_cons. auto.
  - injection E as -> E. apply not_elem_of_cons in Ha as [_ Ha].
    apply not_elem_of_cons in Ha' as [_ Ha'].
    destruct (IH a' Ha Ha' E) as [-> ->]. auto.
Qed.

Lemma refs_NoDup (docs : list Doc.t) :
  NoDup (Doc.url <$> docs) ->
  Forall (fun d => 35 ∉ Doc.url d) docs ->
  Forall (fun d => NoDup (HeadingRef.id <$> Doc.titles d)) docs ->
  NoDup (record_ref <$> flat_map records_of docs).
Proof.
  induction docs as [|d docs IH]; [constructor|].
  rewrite fmap_cons, NoDup_cons, !Forall_cons.
  intros [Hd Hnd] [Hs Hss] [Hi His].
  cbn [flat_map]. rewrite fmap_app. apply NoDup_app.
  split; [|split; [|apply IH; assumption]].
  - rewrite refs_records_of. apply NoDup_cons. split.
    + intros (t & E & _)%list_elem_of_fmap.
      apply (f_equal length) in E. rewrite length_app in E. simpl in E. lia.
    + clear -Hi. induction (Doc.titles d) as [|t ts IHt]; [constructor|].
      rewrite fmap_cons in Hi. apply NoDup_cons in Hi as [Ht Hi].
      rewrite fmap_cons. apply NoDup_cons. split; [|apply IHt, Hi].
      intros (t' & E & Ht')%list_elem_of_fmap. apply Ht.
      apply list_elem_of_fmap. exists t'. split; [|exact Ht'].
      apply app_inv_head in E. injection E as E. exact E.
  - intros x Hx (d' & Hd' & Hx')%elem_of_refs.
    assert (Hne : Doc.url d' <> Doc.url d).
    { intros E. apply Hd. rewrite <- E. apply list_elem_of_fmap. exists d'. auto. }
    assert (Hs' : 35 ∉ Doc.url d').
    { rewrite Forall_forall in Hss. apply Hss, Hd'. }
    rewrite refs_records_of in Hx.
    apply elem_of_cons in Hx as [->|(t & -> & _)%list_elem_of_fmap];
      destruct Hx' as [E|(t' & _ & E)].
    + apply Hne. symmetry. exact E.
    + apply Hs. rewrite E. apply elem_of_app. right. apply elem_of_cons. auto.
    + apply Hs'. rewrite <- E. apply elem_of_app. right. apply elem_of_cons. auto.
    + apply (app_sep_inj 35) in E as [E _]; [|exact Hs|exact Hs'].
      apply Hne. symmetry. exact E.
Qed.

(** ** The size of a set of keys *)


(** * Further theorems *)

(** ** The replacements of lines 61-65 *)

(** X1. Removing the tags (line 61) only takes units away, leaves no tag
    behind, changes exactly the texts that hold a tag, and does nothing
    when done twice.  A tag is a [<], one or more units other than [>],
    and a [>]. *)
Theorem strip_tags_removes_tags (s : jsstring) :
  strip_tags s `sublist_of` s
  /\ ~ has_tag (strip_tags s)
  /\ (strip_tags s = s <-> ~ has_tag s)
  /\ strip_tags (strip_tags s) = strip_tags s.
Proof.
  split; [apply strip_tags_sublist|].
  split; [apply tag_free_no_tag, strip_tags_is_tag_free|].
  split; [|apply strip_tags_tag_free, strip_tags_is_tag_free].
  rewrite <- tag_free_no_tag. split; [|apply strip_tags_tag_free].
  intros <-. apply strip_tags_is_tag_free.
Qed.

(** X2. The chain of lines 61-65 leaves a text as it is exactly when the
    text holds no tag and is single-spaced (every whitespace unit is a
    space, is not the first unit and is followed by a unit that is not
    whitespace); so the chain does nothing when done twice.  Beyond the
    tags it touches whitespace only: the units that are not whitespace
    are those left once the tags are removed, in their order; and its
    result is empty exactly when nothing else is left. *)
Theorem clean_fixed_points (s : jsstring) :
  (clean s = s <-> ~ has_tag s /\ single_spaced s)
  /\ clean (clean s) = clean s
  /\ non_space (clean s) = non_space (strip_tags s)
  /\ (clean s = [] <-> Forall (fun c => is_space c = true) (strip_tags s)).
Proof.
  split; [|split; [|split; [apply non_space_clean|apply clean_nil]]].
  - rewrite <- tag_free_no_tag. split; [|intros [H1 H2]; apply clean_fixed; assumption].
    intros <-. split; [apply clean_tag_free|apply clean_single_spaced].
  - apply clean_fixed; [apply clean_tag_free|apply clean_single_spaced].
Qed.

(** X3. The [text] of a document holds no tag, whatever the page and the
    decoder; each of its units is a space or a unit of the decoded text
    of the article region; it is not longer than that decoded text; and
    it is empty exactly when the decoded text holds only whitespace
    outside its tags. *)
Theorem document_text_without_tags skips decode siteUrl (page : Page.t) :
  let text := Doc.text (extract skips decode siteUrl page) in
  let decoded := decode (article_text skips page) in
  ~ has_tag text
  /\ (forall c, c ∈ text -> c = 32 \/ c ∈ decoded)
  /\ (length text <= length decoded)%nat
  /\ (text = [] <-> Forall (fun c => is_space c = true) (strip_tags decoded)).
Proof.
  intros text decoded. unfold text. rewrite extract_text. fold decoded.
  split; [apply tag_free_no_tag, clean_tag_free|].
  split; [intros c; apply elem_of_clean|].
  split; [apply length_clean|apply clean_nil].
Qed.

(** ** The headings *)

(** X4. No node is selected twice: the article regions, the h1 headings
    and the sub-headings of a page each stand at distinct positions, no
    sub-heading is one of the h1 headings, and so [remove] detaches
    every heading once. *)
Theorem headings_selected_once skips (page : Page.t) :
  NoDup (article page).*1
  /\ NoDup (h1 page).*1
  /\ NoDup (subheadings page).*1
  /\ (forall r, r ∈ subheadings page -> r.1 ∉ (h1 page).*1)
  /\ NoDup (final_tree skips page).
Proof.
  assert (Hd : forall r, r ∈ subheadings page -> r.1 ∉ (h1 page).*1).
  { intros r [_ Hb]%elem_of_subheadings. exact (below_attached _ _ _ Hb). }
  split; [apply find_NoDup|]. split; [apply find_NoDup|].
  split; [apply find_NoDup|]. split; [exact Hd|].
  rewrite final_tree_eq. apply NoDup_app. split; [apply find_NoDup|].
  split; [|apply find_NoDup].
  intros p Hp (r & -> & Hr)%list_elem_of_fmap. exact (Hd r Hr Hp).
Qed.

(** X5. The [titles] of a document: their ids are the non-empty [id]
    attributes of the selected sub-headings, in the order of the
    selection; no entry has an empty id; every entry comes from a
    selected sub-heading with that id, and every selected sub-heading
    with a non-empty id has its entry; there are at most as many entries
    as sub-headings. *)
Theorem titles_of_subheadings skips decode siteUrl (page : Page.t) :
  let titles := Doc.titles (extract skips decode siteUrl page) in
  HeadingRef.id <$> titles = omap heading_id (subheadings page)
  /\ Forall (fun t => HeadingRef.id t <> []) titles
  /\ (forall t, t ∈ titles <->
        exists r c v,
          r ∈ subheadings page /\ attr r.2 (js "id") = Some (c :: v)
          /\ t = HeadingRef.mk (text_outside skips sel_h1 r.2) (c :: v))
  /\ (length titles <= length (subheadings page))%nat.
Proof.
  intros titles. unfold titles. split; [|split; [|split]].
  - rewrite extract_titles. apply titles_ids.
  - apply Forall_forall. intros t. apply titles_id_nonempty.
  - intros t. rewrite extract_titles, list_elem_of_omap. split.
    + intros (r & Hr & (c & v & Ha & ->)%heading_of_Some). exists r, c, v. auto.
    + intros (r & c & v & Hr & Ha & ->). exists r. split; [exact Hr|].
      apply heading_of_Some. exists c, v. auto.
  - rewrite extract_titles. apply length_omap_le.
Qed.

(** ** The index and the store *)

(** X6. The records of the index: the page records are, in order, the
    documents of the pages; every other record is the record of a title
    of one of these documents, its url being the url of the document,
    [#] and a non-empty id; and there are as many records as pages and
    titles together. *)
Theorem index_record_shapes skips decode (playbook : Playbook.t) (page : Page.t)
    (pages : list Page.t) :
  let docs := documents skips decode (site_url playbook) (page :: pages) in
  exists index store,
    generateIndex skips decode playbook (page :: pages) = IndexAndStore index store
    /\ omap record_page (Builder.documents index) = docs
    /\ (forall title url, HeadingRecord title url ∈ Builder.documents index ->
          exists doc t,
            doc ∈ docs /\ t ∈ Doc.titles doc /\ title = HeadingRef.text t
            /\ HeadingRef.id t <> []
            /\ url = Doc.url doc ++ js "#" ++ HeadingRef.id t)
    /\ length (Builder.documents index)
       = (length (page :: pages) + length (flat_map Doc.titles docs))%nat.
Proof.
  intros docs. eexists _, _. split; [reflexivity|]. rewrite configure_eq.
  cbn [Builder.documents]. fold docs. split; [apply omap_record_page|]. split.
  - intros title url Hr.
    apply list_elem_of_In, in_flat_map in Hr as (doc & Hd%list_elem_of_In & Hr%list_elem_of_In).
    apply elem_of_records_of in Hr as [Hr|(t & Ht & Hr)]; [discriminate|].
    injection Hr as -> ->. exists doc, t. split; [exact Hd|]. split; [exact Ht|].
    split; [reflexivity|]. split; [|reflexivity].
    apply list_elem_of_In, in_map_iff in Hd as (p & <- & _).
    eapply titles_id_nonempty, Ht.
  - rewrite length_flat_map_records. unfold docs, documents.
    rewrite length_map. reflexivity.
Qed.




(** X9. The references of the index differ from one another when the
    published paths of the pages differ, neither the site URL nor a
    published path holds a [#], and no page has two sub-headings with
    the same id. *)
Theorem index_refs_distinct skips decode (playbook : Playbook.t) (page : Page.t)
    (pages : list Page.t) :
  NoDup ((fun p => Pub.url (Page.pub p)) <$> page :: pages) ->
  35 ∉ site_url playbook ->
  Forall (fun p => 35 ∉ Pub.url (Page.pub p)) (page :: pages) ->
  Forall (fun p => NoDup (omap heading_id (subheadings p))) (page :: pages) ->
  exists index store,
    generateIndex skips decode playbook (page :: pages) = IndexAndStore index store
    /\ NoDup (record_ref <$> Builder.documents index).
Proof.
  intros Hnd Hs Hp Hi. eexists _, _. split; [reflexivity|].
  rewrite configure_eq. cbn [Builder.documents].
  apply refs_NoDup; [apply documents_urls_NoDup, Hnd| |].
  - apply Forall_forall. intros d (p & <- & Hin%list_elem_of_In)%list_elem_of_In%in_map_iff.
    rewrite extract_url. rewrite Forall_forall in Hp.
    intros [H|H]%elem_of_app; [exact (Hs H)|exact (Hp p Hin H)].
  - apply Forall_forall. intros d (p & <- & Hin%list_elem_of_In)%list_elem_of_In%in_map_iff.
    rewrite extract_titles, titles_ids. rewrite Forall_forall in Hi. apply Hi, Hin.
Qed.

Lemma index_refs_distinct_witness :
  NoDup ((fun p => Pub.url (Page.pub p)) <$> [page_with_section; page_setup])
  /\ (35 ∉ site_url (Playbook.mk (Some (js "https://ex.com/"))))
  /\ Forall (fun p => 35 ∉ Pub.url (Page.pub p)) [page_with_section; page_setup]
  /\ Forall (fun p => NoDup (omap heading_id (subheadings p)))
       [page_with_section; page_setup]
  /\ exists index store,
       generateIndex skip_none decode_basic (Playbook.mk (Some (js "https://ex.com/")))
         [page_with_section; page_setup]
       = IndexAndStore index store
       /\ NoDup (record_ref <$> Builder.documents index).
Proof.
  assert (H1 : NoDup ((fun p => Pub.url (Page.pub p))
                        <$> [page_with_section; page_setup])).
  { apply (bool_decide_unpack _). vm_compute. exact I. }
  assert (H2 : 35 ∉ site_url (Playbook.mk (Some (js "https://ex.com/")))).
  { apply (bool_decide_unpack _). vm_compute. exact I. }
  assert (H3 : Forall (fun p => 35 ∉ Pub.url (Page.pub p))
                 [page_with_section; page_setup]).
  { apply (bool_decide_unpack _). vm_compute. exact I. }
  assert (H4 : Forall (fun p => NoDup (omap heading_id (subheadings p)))
                 [page_with_section; page_setup]).
  { apply (bool_decide_unpack _). vm_compute. exact I. }
  split; [exact H1|]. split; [exact H2|]. split; [exact H3|]. split; [exact H4|].
  exact (index_refs_distinct skip_none decode_basic
           (Playbook.mk (Some (js "https://ex.com/")))
           page_with_section [page_setup] H1 H2 H3 H4).
Defined.

(** ** The site URL *)

(** X10. The site URL used for the links is the configured one, or the
    configured one without its last unit when that is a slash: one slash
    is dropped, never two, and an empty site URL counts as none. *)
Theorem site_url_one_slash (playbook : Playbook.t) :
  let configured := default [] (Playbook.site_url playbook) in
  ((last configured = Some 47 /\ configured = site_url playbook ++ js "/")
   \/ (last configured <> Some 47 /\ site_url playbook = configured))
  /\ (forall base, site_url (Playbook.mk (Some (base ++ js "//"))) = base ++ js "/")
  /\ (Playbook.site_url playbook = Some [] -> site_url playbook = []).
Proof.
  intros configured. split; [|split].
  - rewrite site_url_spec. apply trim_trailing_slash_cases.
  - intros base. rewrite site_url_spec. cbn [Playbook.site_url default].
    change (js "//") with (js "/" ++ js "/"). rewrite app_assoc.
    apply trim_trailing_slash_app.
  - intros E. rewrite site_url_spec, E. reflexivity.
Qed.

(** ** The buffer and the file *)

(** X11. The buffer of any text, well formed or not: two bytes per unit,
    each between 0 and 255; the buffer of a text is the buffer of its
    units taken modulo 65536, read back as these units; and the buffer
    of two texts put together is their two buffers put together. *)
Theorem str2buffer_bytes (little_endian : bool) (str str' : jsstring) :
  length (str2buffer little_endian str) = (2 * length str)%nat
  /\ Forall (fun b => 0 <= b < 256) (str2buffer little_endian str)
  /\ buffer2str little_endian (str2buffer little_endian str)
     = List.map (fun c => c mod 65536) str
  /\ str2buffer little_endian (str ++ str')
     = str2buffer little_endian str ++ str2buffer little_endian str'.
Proof.
  rewrite !str2buffer_eq. split; [|split; [|split]].
  - rewrite length_bytes_of, length_map. reflexivity.
  - apply bytes_of_range. apply Forall_forall.
    intros w (c & <- & _)%list_elem_of_In%in_map_iff.
    apply Z.mod_pos_bound. lia.
  - apply buffer2str_bytes_of.
  - rewrite List.map_app. apply bytes_of_app.
Qed.

(** X12. With a compressor that can be undone, two indexes with
    well-formed serialisations get the same file exactly when their
    serialisations are the same: the file depends on the index through
    its serialisation only, and the buffer and the compressor lose
    nothing of it. *)
Theorem index_file_injective (little_endian : bool) (value : Type)
    (stringify : value -> jsstring) (deflate inflate : list Z -> list Z)
    (index index' : value) :
  (forall b, inflate (deflate b) = b) ->
  wf_string (stringify index) -> wf_string (stringify index') ->
  createIndexFile little_endian value stringify deflate index
  = createIndexFile little_endian value stringify deflate index'
  <-> stringify index = stringify index'.
Proof.
  intros Hinf Hwf Hwf'. unfold createIndexFile, compress. split.
  - intros E. injection E as E. apply (f_equal inflate) in E.
    rewrite !Hinf in E. exact (str2buffer_inj _ _ _ Hwf Hwf' E).
  - intros ->. reflexivity.
Qed.

Lemma index_file_injective_witness :
  (forall b, read_block (store_block b) = b)
  /\ wf_string (braces [233; 8364]) /\ wf_string (braces [233; 8365])
  /\ createIndexFile true jsstring braces store_block [233; 8364]
     <> createIndexFile true jsstring braces store_block [233; 8365].
Proof.
  assert (H1 : forall b, read_block (store_block b) = b) by (intros b; reflexivity).
  assert (H2 : wf_string (braces [233; 8364])).
  { vm_compute. repeat constructor; discriminate. }
  assert (H3 : wf_string (braces [233; 8365])).
  { vm_compute. repeat constructor; discriminate. }
  split; [exact H1|]. split; [exact H2|]. split; [exact H3|].
  intros E.
  apply (proj1 (index_file_injective true jsstring braces store_block read_block
                  [233; 8364] [233; 8365] H1 H2 H3)) in E.
  discriminate E.
Defined.
